(** * SubnetWithRouteTable: a subnet, its route table and its routes

    A verification development for [src/cdksubnetroutetable.ts].  The
    TypeScript class [SubnetWithRouteTable] is a CDK construct: its
    constructor and its method [addRouteTableEntries] add CloudFormation
    resources as children of the construct, and may throw.  The embedding
    keeps both effects: every method is a computation over a state made of
    the caller's heap (the objects passed by reference) and of the construct
    under construction, and a thrown error leaves the state as it was at the
    throw. *)

From Stdlib Require Import Ascii.
From stdpp Require Import base strings gmap list pretty.

(** ** Data model *)

(** Objects are passed by reference: a location in the caller's heap. *)
Definition loc := positive.

(** [interface RouteEntry]. [targetType] is a string at run time; the union
    type of the source lists the four values [resolveTarget] accepts. *)
Record RouteEntry := {
  destinationCidr : string;
  targetType : string;
  targetId : string;
}.

(** [interface CustomRouteTableProps]. An optional property is [None] when it
    is [undefined]; arrays and tag objects are held by reference. *)
Record CustomRouteTableProps := {
  vpcId : string;
  cidrBlock : string;
  availabilityZone : string;
  routeEntries : option loc;
  subnetTags : option loc;
  routeTableTags : option loc;
}.

(** What the caller's heap holds.  A tag object [{ [key: string]: string }]
    is the list of its own properties in the order [Object.entries]
    enumerates them; its keys are pairwise distinct. *)
Inductive JsObject :=
  | ObjProps (p : CustomRouteTableProps)
  | ObjArray (elems : list loc)
  | ObjRouteEntry (e : RouteEntry)
  | ObjTags (t : list (string * string)).

Module cdk.
(** [cdk.CfnTag] *)
Record CfnTag := { key : string; value : string }.
End cdk.

Module ec2.
(** A property value of a resource: a plain string, or the token [x.ref],
    which stands for the resource [x]; [x] is named by its construct id
    inside the enclosing [SubnetWithRouteTable]. *)
Inductive Value :=
  | Str (s : string)
  | Ref (target : string).

Module CfnSubnetProps.
Record t := {
  vpcId : string;
  cidrBlock : string;
  availabilityZone : string;
  mapPublicIpOnLaunch : bool;
  tags : option (list cdk.CfnTag);
}.
End CfnSubnetProps.

Module CfnRouteTableProps.
Record t := {
  vpcId : string;
  tags : option (list cdk.CfnTag);
}.
End CfnRouteTableProps.

Module CfnSubnetRouteTableAssociationProps.
Record t := {
  subnetId : Value;
  routeTableId : Value;
}.
End CfnSubnetRouteTableAssociationProps.

(** The four resource classes the construct instantiates.  The properties
    of a [CfnRoute] are assembled with an object spread, so they are kept
    as a JavaScript object: a finite map from property names to values. *)
Inductive CfnResource :=
  | CfnSubnet (props : CfnSubnetProps.t)
  | CfnRouteTable (props : CfnRouteTableProps.t)
  | CfnSubnetRouteTableAssociation (props : CfnSubnetRouteTableAssociationProps.t)
  | CfnRoute (props : gmap string Value).
End ec2.

(** [class SubnetWithRouteTable]: the children of the construct, in the order
    they were added, each under its construct id, and the two public fields,
    which hold the construct id of the resource assigned to them and are
    [None] before the assignment. *)
Record SubnetWithRouteTable := {
  children : list (string * ec2.CfnResource);
  subnet : option string;
  routeTable : option string;
}.

Record State := {
  heap : gmap loc JsObject;
  this : SubnetWithRouteTable;
}.

Inductive Error :=
  | JsError (message : string)     (* [throw new Error(message)] *)
  | DuplicateName (name : string)  (* constructs: the id is taken in its scope *)
  | TypeError.                     (* a property read through [undefined] *)

(** ** Computations: state, and errors that keep the state *)

Definition M (A : Type) : Type := State → (Error + A) * State.

Global Instance M_ret : MRet M := λ A x s, (inr x, s).
Global Instance M_bind : MBind M := λ A B f m s,
  match m s with
  | (inr x, s') => f x s'
  | (inl e, s') => (inl e, s')
  end.

Definition throw {A} (e : Error) : M A := λ s, (inl e, s).

Definition load (l : loc) : M JsObject := λ s,
  match heap s !! l with
  | Some o => (inr o, s)
  | None => (inl TypeError, s)
  end.

Definition load_props (l : loc) : M CustomRouteTableProps :=
  o ← load l; match o with ObjProps p => mret p | _ => throw TypeError end.
Definition load_array (l : loc) : M (list loc) :=
  o ← load l; match o with ObjArray a => mret a | _ => throw TypeError end.
Definition load_entry (l : loc) : M RouteEntry :=
  o ← load l; match o with ObjRouteEntry e => mret e | _ => throw TypeError end.
Definition load_tags (l : loc) : M (list (string * string)) :=
  o ← load l; match o with ObjTags t => mret t | _ => throw TypeError end.

Definition get_this : M SubnetWithRouteTable := λ s, (inr (this s), s).
Definition put_this (t : SubnetWithRouteTable) : M unit := λ s,
  (inr (), {| heap := heap s; this := t |}).

(** [this.subnet = x] and [this.routeTable = x] *)
Definition set_subnet (x : string) : M unit :=
  t ← get_this;
  put_this {| children := children t; subnet := Some x; routeTable := routeTable t |}.
Definition set_routeTable (x : string) : M unit :=
  t ← get_this;
  put_this {| children := children t; subnet := subnet t; routeTable := Some x |}.

(** [this.subnet.ref] and [this.routeTable.ref] *)
Definition subnet_ref : M ec2.Value :=
  t ← get_this;
  match subnet t with Some x => mret (ec2.Ref x) | None => throw TypeError end.
Definition routeTable_ref : M ec2.Value :=
  t ← get_this;
  match routeTable t with Some x => mret (ec2.Ref x) | None => throw TypeError end.

(** [new R(this, id, props)]: the constructs library adds the resource to the
    children of [this], and throws when [this] already has a child of that
    id.  The result is the handle of the new resource. *)
Definition addChild (id : string) (r : ec2.CfnResource) : M string :=
  t ← get_this;
  if decide (id ∈ (children t).*1) then throw (DuplicateName id)
  else
    put_this {| children := children t ++ [(id, r)];
                subnet := subnet t; routeTable := routeTable t |};;
    mret id.

(** [Array.prototype.forEach], with the index passed to the callback. *)
Fixpoint forEach {A} (f : A → nat → M unit) (l : list A) (index : nat) : M unit :=
  match l with
  | [] => mret ()
  | x :: l' => f x index;; forEach f l' (S index)
  end.

(** ** The methods of the class *)

(** [convertTagsToCdkFormat] *)
Definition convertTagsToCdkFormat (tags : option loc) : M (option (list cdk.CfnTag)) :=
  match tags with
  | None => mret None
  | Some l =>
      t ← load_tags l;
      mret (Some ((λ kv, {| cdk.key := kv.1; cdk.value := kv.2 |}) <$> t))
  end.

(** [resolveTarget] *)
Definition resolveTarget (entry : loc) : M (gmap string ec2.Value) :=
  e ← load_entry entry;
  if decide (targetType e = "tgw") then
    mret {[ "transitGatewayId" := ec2.Str (targetId e) ]}
  else if decide (targetType e = "vpc-endpoint") then
    mret {[ "vpcEndpointId" := ec2.Str (targetId e) ]}
  else if decide (targetType e = "internet-gateway") then
    mret {[ "gatewayId" := ec2.Str (targetId e) ]}
  else if decide (targetType e = "nat-gateway") then
    mret {[ "natGatewayId" := ec2.Str (targetId e) ]}
  else throw (JsError ("Unsupported target type: " +:+ targetType e)).

(** The object literal [{ ...base, ...obj }]: a property of [obj] wins. *)
Definition spread (base obj : gmap string ec2.Value) : gmap string ec2.Value :=
  obj ∪ base.

(** The callback of [addRouteTableEntries]. *)
Definition addRoute (entry : loc) (index : nat) : M unit :=
  rt ← routeTable_ref;
  e ← load_entry entry;
  target ← resolveTarget entry;
  addChild ("Route" +:+ pretty index)
    (ec2.CfnRoute
       (spread {[ "routeTableId" := rt;
                  "destinationCidrBlock" := ec2.Str (destinationCidr e) ]}
               target));;
  mret ().

(** [addRouteTableEntries] *)
Definition addRouteTableEntries (routeEntries : loc) : M unit :=
  arr ← load_array routeEntries;
  forEach addRoute arr 0.

(** The body of the constructor, after [super(scope, id)] has attached the
    construct to its scope. *)
Definition constructor (props : loc) : M unit :=
  p ← load_props props;
  subnet_tags ← convertTagsToCdkFormat (subnetTags p);
  sn ← addChild "Subnet"
    (ec2.CfnSubnet
       {| ec2.CfnSubnetProps.vpcId := vpcId p;
          ec2.CfnSubnetProps.cidrBlock := cidrBlock p;
          ec2.CfnSubnetProps.availabilityZone := availabilityZone p;
          ec2.CfnSubnetProps.mapPublicIpOnLaunch := false;
          ec2.CfnSubnetProps.tags := subnet_tags |});
  set_subnet sn;;
  rt_tags ← convertTagsToCdkFormat (routeTableTags p);
  rt ← addChild "RouteTable"
    (ec2.CfnRouteTable
       {| ec2.CfnRouteTableProps.vpcId := vpcId p;
          ec2.CfnRouteTableProps.tags := rt_tags |});
  set_routeTable rt;;
  sref ← subnet_ref;
  rref ← routeTable_ref;
  addChild "SubnetRouteTableAssoc"
    (ec2.CfnSubnetRouteTableAssociation
       {| ec2.CfnSubnetRouteTableAssociationProps.subnetId := sref;
          ec2.CfnSubnetRouteTableAssociationProps.routeTableId := rref |});;
  match routeEntries p with
  | Some a => addRouteTableEntries a
  | None => mret ()
  end.

(** A construct that has no child yet. *)
Definition blank : SubnetWithRouteTable :=
  {| children := []; subnet := None; routeTable := None |}.

(** [new SubnetWithRouteTable(scope, id, props)]: the body of the constructor
    runs on a blank construct.  The result is the outcome and the state at
    the end, or at the throw: the construct is in its scope either way. *)
Definition new_SubnetWithRouteTable (props : loc) (h : gmap loc JsObject)
    : (Error + unit) * State :=
  constructor props {| heap := h; this := blank |}.

(** ** Reading a specification off the caller's heap

    The functions below follow the references of a props object.  They are
    defined when every reference leads to an object of the class its type
    announces, which is what the types of the source guarantee. *)

Definition read_entry (h : gmap loc JsObject) (l : loc) : option RouteEntry :=
  match h !! l with Some (ObjRouteEntry e) => Some e | _ => None end.

Definition read_array (h : gmap loc JsObject) (a : loc) : option (list RouteEntry) :=
  match h !! a with Some (ObjArray ls) => mapM (read_entry h) ls | _ => None end.

Definition read_tags (h : gmap loc JsObject) (l : loc) : option (list (string * string)) :=
  match h !! l with Some (ObjTags t) => Some t | _ => None end.

Definition read_optional {A} (rd : loc → option A) (o : option loc) : option (option A) :=
  match o with
  | None => Some None
  | Some l => Some <$> rd l
  end.

(** The content of a props object, with the objects it refers to read in
    place of their references.  The fields bear the names the specification
    gives to [vpcId], [cidrBlock], [availabilityZone], [routeEntries],
    [subnetTags] and [routeTableTags]. *)
Record NetworkSegmentSpec := {
  networkId : string;
  addressBlock : string;
  zone : string;
  routes : option (list RouteEntry);
  subnetLabels : option (list (string * string));
  routeTableLabels : option (list (string * string));
}.

Definition read_spec (h : gmap loc JsObject) (p : loc) : option NetworkSegmentSpec :=
  match h !! p with
  | Some (ObjProps pr) =>
      rs ← read_optional (read_array h) (routeEntries pr);
      st ← read_optional (read_tags h) (subnetTags pr);
      rt ← read_optional (read_tags h) (routeTableTags pr);
      Some {| networkId := vpcId pr; addressBlock := cidrBlock pr;
              zone := availabilityZone pr; routes := rs;
              subnetLabels := st; routeTableLabels := rt |}
  | _ => None
  end.

(** ** Vocabulary of the statements *)

(** The values of [targetType] that the type [RouteEntry] allows, and the
    properties of a [CfnRoute] that name a target. *)
Definition targetTypes : list string :=
  ["tgw"; "vpc-endpoint"; "internet-gateway"; "nat-gateway"].
Definition targetFields : list string :=
  ["transitGatewayId"; "vpcEndpointId"; "gatewayId"; "natGatewayId"].

Definition supported (e : RouteEntry) : Prop := targetType e ∈ targetTypes.

Global Instance supported_dec e : Decision (supported e).
Proof. unfold supported. apply _. Defined.

(** A specification is well typed when each of its routes has one of the
    four target types. *)
Definition well_typed (spec : NetworkSegmentSpec) : Prop :=
  Forall supported (default [] (routes spec)).

(** Exactly one target property is present. *)
Definition exclusive (props : gmap string ec2.Value) : Prop :=
  ∃ f, f ∈ targetFields ∧ is_Some (props !! f) ∧
       ∀ g, g ∈ targetFields → g ≠ f → props !! g = None.

(** The resources of each class among the children, in order. *)
Definition as_route (c : string * ec2.CfnResource) : option (string * gmap string ec2.Value) :=
  match c.2 with ec2.CfnRoute props => Some (c.1, props) | _ => None end.
Definition as_subnet (c : string * ec2.CfnResource) : option (string * ec2.CfnSubnetProps.t) :=
  match c.2 with ec2.CfnSubnet props => Some (c.1, props) | _ => None end.
Definition as_routeTable (c : string * ec2.CfnResource)
    : option (string * ec2.CfnRouteTableProps.t) :=
  match c.2 with ec2.CfnRouteTable props => Some (c.1, props) | _ => None end.
Definition as_association (c : string * ec2.CfnResource)
    : option (string * ec2.CfnSubnetRouteTableAssociationProps.t) :=
  match c.2 with ec2.CfnSubnetRouteTableAssociation props => Some (c.1, props) | _ => None end.

Definition routesOf (t : SubnetWithRouteTable) := omap as_route (children t).
Definition subnetsOf (t : SubnetWithRouteTable) := omap as_subnet (children t).
Definition routeTablesOf (t : SubnetWithRouteTable) := omap as_routeTable (children t).
Definition associationsOf (t : SubnetWithRouteTable) := omap as_association (children t).

(** What every resource the class creates satisfies. *)
Definition resource_ok (r : ec2.CfnResource) : Prop :=
  match r with
  | ec2.CfnSubnet props => ec2.CfnSubnetProps.mapPublicIpOnLaunch props = false
  | ec2.CfnRoute props => exclusive props
  | _ => True
  end.

(** The caller's heap is [h], and every child satisfies [P]. *)
Definition inv (P : ec2.CfnResource → Prop) (h : gmap loc JsObject) (s : State) : Prop :=
  heap s = h ∧ Forall (λ c, P c.2) (children (this s)).

(** A computation keeps the invariant [I], thrown error or not, and a value
    it returns satisfies [Q]. *)
Definition triple {A} (I : State → Prop) (m : M A) (Q : A → Prop) : Prop :=
  ∀ s, I s → I (m s).2 ∧ ∀ x, (m s).1 = inr x → Q x.

(** The states a caller can observe: after a construction, thrown error or
    not, after any later call of [addRouteTableEntries], and after the caller
    has changed its own objects. *)
Inductive reachable : State → Prop :=
  | reachable_new props h :
      reachable (new_SubnetWithRouteTable props h).2
  | reachable_add s a :
      reachable s → reachable (addRouteTableEntries a s).2
  | reachable_heap s h :
      reachable s → reachable {| heap := h; this := this s |}.

(** ** The resources a run emits, as functions of the specification *)

(** The target property [resolveTarget] selects for a target type. *)
Definition targetField (t : string) : option string :=
  if decide (t = "tgw") then Some "transitGatewayId"
  else if decide (t = "vpc-endpoint") then Some "vpcEndpointId"
  else if decide (t = "internet-gateway") then Some "gatewayId"
  else if decide (t = "nat-gateway") then Some "natGatewayId"
  else None.

Definition unsupported_error (e : RouteEntry) : Error :=
  JsError ("Unsupported target type: " +:+ targetType e).

Definition route_props (rt : string) (e : RouteEntry) (f : string) : gmap string ec2.Value :=
  spread {[ "routeTableId" := ec2.Ref rt;
            "destinationCidrBlock" := ec2.Str (destinationCidr e) ]}
         {[ f := ec2.Str (targetId e) ]}.

Definition route_of (rt : string) (index : nat) (e : RouteEntry) (f : string)
    : string * ec2.CfnResource :=
  ("Route" +:+ pretty index, ec2.CfnRoute (route_props rt e f)).

(** The outcome of the loop of [addRouteTableEntries] over the entries [es],
    and the children it has added when it ends or throws. *)
Fixpoint emitted (rt : string) (index : nat) (es : list RouteEntry)
    : (Error + unit) * list (string * ec2.CfnResource) :=
  match es with
  | [] => (inr (), [])
  | e :: es' =>
      match targetField (targetType e) with
      | None => (inl (unsupported_error e), [])
      | Some f =>
          let r := emitted rt (S index) es' in
          (r.1, route_of rt index e f :: r.2)
      end
  end.

Definition to_tags (t : list (string * string)) : list cdk.CfnTag :=
  (λ kv, {| cdk.key := kv.1; cdk.value := kv.2 |}) <$> t.

(** The three children every construction starts with. *)
Definition base_children (spec : NetworkSegmentSpec) : list (string * ec2.CfnResource) :=
  [ ("Subnet",
     ec2.CfnSubnet
       {| ec2.CfnSubnetProps.vpcId := networkId spec;
          ec2.CfnSubnetProps.cidrBlock := addressBlock spec;
          ec2.CfnSubnetProps.availabilityZone := zone spec;
          ec2.CfnSubnetProps.mapPublicIpOnLaunch := false;
          ec2.CfnSubnetProps.tags := to_tags <$> subnetLabels spec |});
    ("RouteTable",
     ec2.CfnRouteTable
       {| ec2.CfnRouteTableProps.vpcId := networkId spec;
          ec2.CfnRouteTableProps.tags := to_tags <$> routeTableLabels spec |});
    ("SubnetRouteTableAssoc",
     ec2.CfnSubnetRouteTableAssociation
       {| ec2.CfnSubnetRouteTableAssociationProps.subnetId := ec2.Ref "Subnet";
          ec2.CfnSubnetRouteTableAssociationProps.routeTableId := ec2.Ref "RouteTable" |}) ].

Definition with_children (t : SubnetWithRouteTable) (cs : list (string * ec2.CfnResource))
    : SubnetWithRouteTable :=
  {| children := children t ++ cs; subnet := subnet t; routeTable := routeTable t |}.

(** ** Example inputs *)

Definition igw_route : RouteEntry :=
  {| destinationCidr := "0.0.0.0/0"; targetType := "internet-gateway"; targetId := "igw-123" |}.
Definition nat_route : RouteEntry :=
  {| destinationCidr := "10.1.0.0/16"; targetType := "nat-gateway"; targetId := "nat-7" |}.
Definition tgw_route : RouteEntry :=
  {| destinationCidr := "10.2.0.0/16"; targetType := "tgw"; targetId := "tgw-1" |}.
Definition vpn_route : RouteEntry :=
  {| destinationCidr := "10.8.0.0/16"; targetType := "vpn-gateway"; targetId := "vgw-9" |}.

Definition example_props (rs st : option loc) : CustomRouteTableProps :=
  {| vpcId := "vpc-1"; cidrBlock := "10.0.1.0/24"; availabilityZone := "us-east-1a";
     routeEntries := rs; subnetTags := st; routeTableTags := None |}.

(** A caller's heap: at 1 the props of scenario A of the specification with
    two subnet tags; at 12 a second props object with the same content; at 9
    props whose second route has a target type outside the four; at 17 props
    whose only route has such a target type; at 11 props without routes; at
    5 an array for a later [addRouteTableEntries]. *)
Definition example_heap : gmap loc JsObject :=
  list_to_map
    [ (1%positive, ObjProps (example_props (Some 2%positive) (Some 4%positive)));
      (2%positive, ObjArray [3%positive]);
      (3%positive, ObjRouteEntry igw_route);
      (4%positive, ObjTags [("env", "prod"); ("team", "net")]);
      (5%positive, ObjArray [6%positive]);
      (6%positive, ObjRouteEntry nat_route);
      (7%positive, ObjRouteEntry vpn_route);
      (8%positive, ObjArray [3%positive; 7%positive; 6%positive]);
      (9%positive, ObjProps (example_props (Some 8%positive) None));
      (10%positive, ObjTags []);
      (11%positive, ObjProps (example_props None None));
      (12%positive, ObjProps (example_props (Some 13%positive) (Some 15%positive)));
      (13%positive, ObjArray [14%positive]);
      (14%positive, ObjRouteEntry igw_route);
      (15%positive, ObjTags [("env", "prod"); ("team", "net")]);
      (16%positive, ObjArray [7%positive]);
      (17%positive, ObjProps (example_props (Some 16%positive) None));
      (18%positive, ObjRouteEntry tgw_route) ].

Definition example_spec : NetworkSegmentSpec :=
  {| networkId := "vpc-1"; addressBlock := "10.0.1.0/24"; zone := "us-east-1a";
     routes := Some [igw_route];
     subnetLabels := Some [("env", "prod"); ("team", "net")];
     routeTableLabels := None |}.

Definition example_state (t : SubnetWithRouteTable) : State :=
  {| heap := example_heap; this := t |}.

(** ** Vocabulary of the further properties *)

Definition route_name (k : nat) : string := "Route" +:+ pretty k.

(** What a run of the loop of [addRouteTableEntries] that starts at [index]
    on the construct [t] may append: routes only, named by consecutive
    indices, under names [t] does not have, each built from one entry with
    the reference to the route table of [t]. *)
Definition appended_routes (t : SubnetWithRouteTable) (index : nat)
    (cs : list (string * ec2.CfnResource)) : Prop :=
  cs.*1 = route_name <$> seq index (length cs)
  ∧ (∀ n, n ∈ cs.*1 → n ∉ (children t).*1)
  ∧ Forall (λ c, ∃ rt e f,
               routeTable t = Some rt
               ∧ targetField (targetType e) = Some f
               ∧ c.2 = ec2.CfnRoute (route_props rt e f)) cs.

Definition has_subnet (t : SubnetWithRouteTable) : Prop :=
  ∃ props, ("Subnet", ec2.CfnSubnet props) ∈ children t.
Definition has_routeTable (t : SubnetWithRouteTable) : Prop :=
  ∃ props, ("RouteTable", ec2.CfnRouteTable props) ∈ children t.

(** A child has the name of its class, and the references it holds lead to
    children of [t] of the class they announce. *)
Definition child_ok (t : SubnetWithRouteTable) (id : string) (r : ec2.CfnResource) : Prop :=
  match r with
  | ec2.CfnSubnet _ => id = "Subnet"
  | ec2.CfnRouteTable _ => id = "RouteTable"
  | ec2.CfnSubnetRouteTableAssociation props =>
      id = "SubnetRouteTableAssoc"
      ∧ ec2.CfnSubnetRouteTableAssociationProps.subnetId props = ec2.Ref "Subnet"
      ∧ ec2.CfnSubnetRouteTableAssociationProps.routeTableId props = ec2.Ref "RouteTable"
      ∧ has_subnet t ∧ has_routeTable t
  | ec2.CfnRoute props =>
      (∃ k, id = route_name k)
      ∧ (∃ e f, targetField (targetType e) = Some f
                ∧ props = route_props "RouteTable" e f)
      ∧ has_routeTable t
  end.

Definition tree_ok (t : SubnetWithRouteTable) : Prop :=
  NoDup (children t).*1
  ∧ (∀ id r, (id, r) ∈ children t → child_ok t id r)
  ∧ (∀ x, subnet t = Some x → x = "Subnet" ∧ has_subnet t)
  ∧ (∀ x, routeTable t = Some x → x = "RouteTable" ∧ has_routeTable t).

(** [cdk.CfnTag[]] read back as the properties of a tag object. *)
Definition from_tags (tags : list cdk.CfnTag) : list (string * string) :=
  (λ tg, (cdk.key tg, cdk.value tg)) <$> tags.

(** A second caller's heap: at 1 props without [routeEntries], at 2 props of
    the same content but for [routeEntries], an empty array; at 4 and 6 two
    arrays for [addRouteTableEntries]; at 8 props with both tag objects. *)
Definition extra_heap : gmap loc JsObject :=
  list_to_map
    [ (1%positive, ObjProps (example_props None None));
      (2%positive, ObjProps (example_props (Some 3%positive) None));
      (3%positive, ObjArray []);
      (4%positive, ObjArray [5%positive; 7%positive]);
      (5%positive, ObjRouteEntry nat_route);
      (6%positive, ObjArray [7%positive]);
      (7%positive, ObjRouteEntry tgw_route);
      (8%positive,
       ObjProps {| vpcId := "vpc-2"; cidrBlock := "10.9.0.0/24";
                   availabilityZone := "eu-west-1b"; routeEntries := Some 9%positive;
                   subnetTags := Some 10%positive; routeTableTags := Some 11%positive |});
      (9%positive, ObjArray [12%positive; 5%positive]);
      (10%positive, ObjTags [("tier", "private")]);
      (11%positive, ObjTags [("owner", "net"); ("env", "dev")]);
      (12%positive, ObjRouteEntry vpn_route) ].

Definition no_routes_spec : NetworkSegmentSpec :=
  {| networkId := "vpc-1"; addressBlock := "10.0.1.0/24"; zone := "us-east-1a";
     routes := None; subnetLabels := None; routeTableLabels := None |}.

(** ** The monad *)

Lemma bind_inr {A B} (m : M A) (f : A → M B) s x s' :
  m s = (inr x, s') → (m ≫= f) s = f x s'.
Proof. intros Hm. unfold mbind, M_bind. by rewrite Hm. Qed.

Lemma bind_inl {A B} (m : M A) (f : A → M B) s e s' :
  m s = (inl e, s') → (m ≫= f) s = (inl e, s').
Proof. intros Hm. unfold mbind, M_bind. by rewrite Hm. Qed.

Lemma triple_ret {A} I (x : A) (Q : A → Prop) : Q x → triple I (mret x) Q.
Proof. intros HQ s Hs. split; [done|]. by intros y [= <-]. Qed.

Lemma triple_throw {A} I e (Q : A → Prop) : triple I (throw e) Q.
Proof. intros s Hs. split; [done|]. by intros y [=]. Qed.

Lemma triple_bind {A B} I (m : M A) (f : A → M B) (Q : A → Prop) (R : B → Prop) :
  triple I m Q → (∀ x, Q x → triple I (f x) R) → triple I (m ≫= f) R.
Proof.
  intros Hm Hf s Hs. destruct (Hm s Hs) as [HI HQ].
  unfold mbind, M_bind. destruct (m s) as [[e|x] s']; simpl in *.
  - split; [done|]. by intros y [=].
  - apply (Hf x); auto.
Qed.

(** ** What every run preserves *)

Lemma triple_load I l : triple I (load l) (λ _, True).
Proof.
  intros s Hs. unfold load. by destruct (heap s !! l); simpl.
Qed.

Lemma triple_load_props I l : triple I (load_props l) (λ _, True).
Proof.
  eapply triple_bind; [apply triple_load|].
  intros [] _; first [by apply triple_ret | apply triple_throw].
Qed.

Lemma triple_load_array I l : triple I (load_array l) (λ _, True).
Proof.
  eapply triple_bind; [apply triple_load|].
  intros [] _; first [by apply triple_ret | apply triple_throw].
Qed.

Lemma triple_load_entry I l : triple I (load_entry l) (λ _, True).
Proof.
  eapply triple_bind; [apply triple_load|].
  intros [] _; first [by apply triple_ret | apply triple_throw].
Qed.

Lemma triple_load_tags I l : triple I (load_tags l) (λ _, True).
Proof.
  eapply triple_bind; [apply triple_load|].
  intros [] _; first [by apply triple_ret | apply triple_throw].
Qed.

Lemma triple_convertTagsToCdkFormat I tags :
  triple I (convertTagsToCdkFormat tags) (λ _, True).
Proof.
  destruct tags as [l|]; simpl; [|by apply triple_ret].
  eapply triple_bind; [apply triple_load_tags|].
  intros t _. by apply triple_ret.
Qed.

Lemma triple_subnet_ref I : triple I subnet_ref (λ _, True).
Proof.
  intros s Hs. unfold subnet_ref, mbind, M_bind, get_this.
  by destruct (subnet (this s)); simpl.
Qed.

Lemma triple_routeTable_ref I : triple I routeTable_ref (λ _, True).
Proof.
  intros s Hs. unfold routeTable_ref, mbind, M_bind, get_this.
  by destruct (routeTable (this s)); simpl.
Qed.

Lemma spread_exclusive (rt d v : ec2.Value) f :
  f ∈ targetFields →
  exclusive (spread {[ "routeTableId" := rt; "destinationCidrBlock" := d ]} {[ f := v ]}).
Proof.
  intros Hf. exists f. unfold spread. split; [done|]. split.
  - exists v. apply lookup_union_Some_l. by rewrite lookup_singleton_eq.
  - intros g Hg Hne. apply lookup_union_None. split.
    + by rewrite lookup_singleton_ne.
    + unfold targetFields in Hg.
      repeat (apply elem_of_cons in Hg as [->|Hg]; [done|]).
      by apply elem_of_nil in Hg.
Qed.

Lemma triple_resolveTarget I entry :
  triple I (resolveTarget entry)
    (λ target, ∃ f v, f ∈ targetFields ∧ target = {[ f := v ]}).
Proof.
  eapply triple_bind; [apply triple_load_entry|].
  intros e _. unfold targetFields.
  repeat case_decide; first [apply triple_throw | apply triple_ret];
    eexists _, _; (split; [|done]); set_solver.
Qed.

Lemma triple_forEach {A} I (f : A → nat → M unit) l :
  (∀ x i, triple I (f x i) (λ _, True)) →
  ∀ index, triple I (forEach f l index) (λ _, True).
Proof.
  intros Hf. induction l as [|x l IH]; intros index; simpl.
  - by apply triple_ret.
  - eapply triple_bind; [apply Hf|]. intros _ _. apply IH.
Qed.

Section invariant.
Context (P : ec2.CfnResource → Prop) (h : gmap loc JsObject).
Hypothesis P_created : ∀ r, resource_ok r → P r.

Lemma triple_set_subnet x : triple (inv P h) (set_subnet x) (λ _, True).
Proof. intros s [? ?]. by repeat split. Qed.

Lemma triple_set_routeTable x : triple (inv P h) (set_routeTable x) (λ _, True).
Proof. intros s [? ?]. by repeat split. Qed.

Lemma triple_addChild id r :
  resource_ok r → triple (inv P h) (addChild id r) (λ _, True).
Proof.
  intros Hr s [Hh Hc]. unfold addChild, mbind, M_bind, get_this.
  case_decide; simpl; [by repeat split|].
  repeat split; [done|]. apply Forall_app. split; [done|].
  apply Forall_singleton. by apply P_created.
Qed.

Lemma triple_addRoute entry index : triple (inv P h) (addRoute entry index) (λ _, True).
Proof.
  eapply triple_bind; [apply triple_routeTable_ref|]. intros rt _.
  eapply triple_bind; [apply triple_load_entry|]. intros e _.
  eapply triple_bind; [apply triple_resolveTarget|]. intros ? (f & v & Hf & ->).
  eapply triple_bind; [|intros; by apply triple_ret].
  apply triple_addChild. simpl. by apply spread_exclusive.
Qed.

Lemma triple_addRouteTableEntries a :
  triple (inv P h) (addRouteTableEntries a) (λ _, True).
Proof.
  eapply triple_bind; [apply triple_load_array|]. intros arr _.
  apply triple_forEach. intros. apply triple_addRoute.
Qed.

Lemma triple_constructor props :
  triple (inv P h) (constructor props) (λ _, True).
Proof.
  unfold constructor.
  eapply triple_bind; [apply triple_load_props|]. intros p _.
  eapply triple_bind; [apply triple_convertTagsToCdkFormat|]. intros st _.
  eapply triple_bind; [by apply triple_addChild|]. intros sn _.
  eapply triple_bind; [apply triple_set_subnet|]. intros _ _.
  eapply triple_bind; [apply triple_convertTagsToCdkFormat|]. intros rtt _.
  eapply triple_bind; [by apply triple_addChild|]. intros rt _.
  eapply triple_bind; [apply triple_set_routeTable|]. intros _ _.
  eapply triple_bind; [apply triple_subnet_ref|]. intros sref _.
  eapply triple_bind; [apply triple_routeTable_ref|]. intros rref _.
  eapply triple_bind; [by apply triple_addChild|]. intros _ _.
  destruct (routeEntries p); [apply triple_addRouteTableEntries | by apply triple_ret].
Qed.

End invariant.

(** ** Names of the routes *)

Lemma pretty_N_go_head x s :
  (0 < x)%N → ∃ d rest, pretty_N_go x s = String (pretty_N_char d) rest.
Proof.
  revert s. induction (N.lt_wf_0 x) as [x _ IH]; intros s Hx.
  rewrite pretty_N_go_step by done.
  destruct (decide (x `div` 10 = 0)%N) as [Hz|Hz].
  - rewrite Hz, pretty_N_go_0. eauto.
  - apply IH; [apply N.div_lt; lia |].
    destruct (x `div` 10)%N; [done | lia].
Qed.

Lemma pretty_nat_head (n : nat) : ∃ d rest, pretty n = String (pretty_N_char d) rest.
Proof.
  unfold pretty, pretty_nat, pretty, pretty_N. case_decide as Hn.
  - by exists 0%N, EmptyString.
  - apply pretty_N_go_head. lia.
Qed.

Lemma pretty_nat_not_Table (n : nat) : pretty n ≠ "Table".
Proof.
  destruct (pretty_nat_head n) as (d & rest & ->). intros [= Hd _].
  unfold pretty_N_char in Hd. repeat case_match; discriminate.
Qed.

Lemma route_name_inj (i j : nat) : "Route" +:+ pretty i = "Route" +:+ pretty j → i = j.
Proof. intros H. apply (inj (String.app "Route")) in H. by apply (inj pretty) in H. Qed.

Lemma route_name_chars (x : string) :
  "Route" +:+ x
  = String "R"%char (String "o"%char (String "u"%char (String "t"%char (String "e"%char x)))).
Proof. reflexivity. Qed.

Lemma route_name_fresh (j : nat) :
  "Route" +:+ pretty j ∉ ["Subnet"; "RouteTable"; "SubnetRouteTableAssoc"].
Proof.
  rewrite route_name_chars. intros H.
  repeat (apply elem_of_cons in H as [H|H]); try discriminate H.
  - injection H as H. by apply pretty_nat_not_Table in H.
  - by apply elem_of_nil in H.
Qed.

(** ** Running the primitives *)

Lemma load_props_run s l p :
  heap s !! l = Some (ObjProps p) → load_props l s = (inr p, s).
Proof. intros H. unfold load_props, load, mbind, M_bind. by rewrite H. Qed.

Lemma load_array_run s l a :
  heap s !! l = Some (ObjArray a) → load_array l s = (inr a, s).
Proof. intros H. unfold load_array, load, mbind, M_bind. by rewrite H. Qed.

Lemma load_entry_run s l e :
  read_entry (heap s) l = Some e → load_entry l s = (inr e, s).
Proof.
  unfold read_entry, load_entry, load, mbind, M_bind.
  destruct (heap s !! l) as [[]|]; naive_solver.
Qed.

Lemma load_tags_run s l t :
  read_tags (heap s) l = Some t → load_tags l s = (inr t, s).
Proof.
  unfold read_tags, load_tags, load, mbind, M_bind.
  destruct (heap s !! l) as [[]|]; naive_solver.
Qed.

Lemma convertTagsToCdkFormat_run s tags t :
  read_optional (read_tags (heap s)) tags = Some t →
  convertTagsToCdkFormat tags s = (inr (to_tags <$> t), s).
Proof.
  destruct tags as [l|]; simpl.
  - destruct (read_tags (heap s) l) as [t'|] eqn:Ht; [|done]. intros [= <-].
    by rewrite (bind_inr _ _ _ _ _ (load_tags_run _ _ _ Ht)).
  - by intros [= <-].
Qed.

Lemma addChild_run h t id r :
  id ∉ (children t).*1 →
  addChild id r {| heap := h; this := t |}
  = (inr id, {| heap := h; this := with_children t [(id, r)] |}).
Proof.
  intros Hid. unfold addChild, mbind, M_bind, get_this; simpl.
  by rewrite decide_False by done.
Qed.

Lemma addChild_duplicate s id r :
  id ∈ (children (this s)).*1 → addChild id r s = (inl (DuplicateName id), s).
Proof.
  intros Hid. unfold addChild, mbind, M_bind, get_this; simpl.
  by rewrite decide_True by done.
Qed.

Lemma routeTable_ref_run s rt :
  routeTable (this s) = Some rt → routeTable_ref s = (inr (ec2.Ref rt), s).
Proof. intros H. unfold routeTable_ref, mbind, M_bind, get_this. by rewrite H. Qed.

Lemma targetField_Some t f : targetField t = Some f → t ∈ targetTypes ∧ f ∈ targetFields.
Proof.
  unfold targetField, targetTypes, targetFields.
  repeat case_decide; intros [= <-]; subst; set_solver.
Qed.

Lemma targetField_supported e : supported e ↔ is_Some (targetField (targetType e)).
Proof.
  split.
  - unfold supported, targetTypes, targetField. intros H.
    repeat (apply elem_of_cons in H as [->|H]; [by eexists|]).
    by apply elem_of_nil in H.
  - intros [f Hf]. by apply targetField_Some in Hf as [? _].
Qed.

Lemma resolveTarget_run s l e :
  read_entry (heap s) l = Some e →
  resolveTarget l s
  = (match targetField (targetType e) with
     | Some f => inr {[ f := ec2.Str (targetId e) ]}
     | None => inl (unsupported_error e)
     end, s).
Proof.
  intros He. unfold resolveTarget.
  rewrite (bind_inr _ _ _ _ _ (load_entry_run _ _ _ He)).
  unfold targetField. by repeat case_decide.
Qed.

(** ** Running the loop and the constructor *)

Lemma with_children_nil t : with_children t [] = t.
Proof. destruct t. unfold with_children; simpl. by rewrite app_nil_r. Qed.

Lemma with_children_app t cs cs' :
  with_children (with_children t cs) cs' = with_children t (cs ++ cs').
Proof. unfold with_children; simpl. by rewrite app_assoc. Qed.

Lemma addRoute_run h t rt l e i :
  read_entry h l = Some e →
  routeTable t = Some rt →
  "Route" +:+ pretty i ∉ (children t).*1 →
  addRoute l i {| heap := h; this := t |}
  = match targetField (targetType e) with
    | Some f => (inr (), {| heap := h; this := with_children t [route_of rt i e f] |})
    | None => (inl (unsupported_error e), {| heap := h; this := t |})
    end.
Proof.
  intros He Hrt Hfresh. unfold addRoute.
  erewrite bind_inr by (by apply routeTable_ref_run).
  erewrite bind_inr by (by apply load_entry_run).
  pose proof (resolveTarget_run {| heap := h; this := t |} l e He) as Hr.
  destruct (targetField (targetType e)) as [f|].
  - erewrite bind_inr by exact Hr.
    by erewrite bind_inr by (by apply addChild_run).
  - by erewrite bind_inl by exact Hr.
Qed.

Lemma forEach_addRoute_run h rt ls es :
  Forall2 (λ l e, read_entry h l = Some e) ls es →
  ∀ (i : nat) t,
    routeTable t = Some rt →
    (∀ j : nat, (i ≤ j)%nat → "Route" +:+ pretty j ∉ (children t).*1) →
    forEach addRoute ls i {| heap := h; this := t |}
    = ((emitted rt i es).1, {| heap := h; this := with_children t (emitted rt i es).2 |}).
Proof.
  induction 1 as [|l e ls es He _ IH]; intros i t Hrt Hfresh; simpl.
  - by rewrite with_children_nil.
  - pose proof (addRoute_run h t rt l e i He Hrt (Hfresh i (le_n i))) as Hrun.
    destruct (targetField (targetType e)) as [f|]; simpl.
    + erewrite bind_inr by exact Hrun.
      rewrite IH, ?with_children_app; [done..|].
      intros j Hj. simpl. rewrite fmap_app, elem_of_app. intros [Hin|Hin].
      * apply (Hfresh j); [lia|done].
      * apply list_elem_of_singleton in Hin. apply route_name_inj in Hin. lia.
    + erewrite bind_inl by exact Hrun. by rewrite with_children_nil.
Qed.

Lemma addRouteTableEntries_run h t rt a es :
  read_array h a = Some es →
  routeTable t = Some rt →
  (∀ j : nat, "Route" +:+ pretty j ∉ (children t).*1) →
  addRouteTableEntries a {| heap := h; this := t |}
  = ((emitted rt 0 es).1, {| heap := h; this := with_children t (emitted rt 0 es).2 |}).
Proof.
  unfold read_array. intros Ha Hrt Hfresh.
  destruct (h !! a) as [[|ls| |]|] eqn:Hl; try done.
  apply mapM_Some in Ha. unfold addRouteTableEntries.
  erewrite bind_inr by (by apply load_array_run).
  by apply forEach_addRoute_run.
Qed.

Ltac fresh_name :=
  simpl; rewrite ?not_elem_of_cons; repeat split;
  first [discriminate | apply not_elem_of_nil].

Lemma constructor_run h p spec :
  read_spec h p = Some spec →
  new_SubnetWithRouteTable p h
  = ((emitted "RouteTable" 0 (default [] (routes spec))).1,
     {| heap := h;
        this := {| children := base_children spec
                     ++ (emitted "RouteTable" 0 (default [] (routes spec))).2;
                   subnet := Some "Subnet";
                   routeTable := Some "RouteTable" |} |}).
Proof.
  unfold read_spec. intros Hspec.
  destruct (h !! p) as [[pr| | |]|] eqn:Hp; try done.
  destruct (read_optional (read_array h) (routeEntries pr)) as [rs|] eqn:Hrs; [|done].
  destruct (read_optional (read_tags h) (subnetTags pr)) as [st|] eqn:Hst; [|done].
  destruct (read_optional (read_tags h) (routeTableTags pr)) as [rtt|] eqn:Hrtt; [|done].
  simpl in Hspec. injection Hspec as <-. simpl.
  unfold new_SubnetWithRouteTable, constructor.
  erewrite bind_inr by (by apply load_props_run).
  erewrite bind_inr by (by apply convertTagsToCdkFormat_run).
  erewrite bind_inr by (apply addChild_run; fresh_name).
  erewrite bind_inr by reflexivity.
  erewrite bind_inr by (by apply convertTagsToCdkFormat_run).
  erewrite bind_inr by (apply addChild_run; fresh_name).
  erewrite bind_inr by reflexivity.
  erewrite bind_inr by reflexivity.
  erewrite bind_inr by reflexivity.
  erewrite bind_inr by (apply addChild_run; fresh_name).
  destruct (routeEntries pr) as [a|]; simpl in Hrs.
  - destruct (read_array h a) as [es|] eqn:Ha; [|done]. injection Hrs as <-.
    erewrite addRouteTableEntries_run; [done..|].
    intros j. apply route_name_fresh.
  - by injection Hrs as <-.
Qed.

(** ** The emitted routes *)

Lemma emitted_only_routes rt es :
  ∀ i, omap as_subnet (emitted rt i es).2 = []
       ∧ omap as_routeTable (emitted rt i es).2 = []
       ∧ omap as_association (emitted rt i es).2 = [].
Proof.
  induction es as [|e es IH]; intros i; simpl; [done|].
  destruct (targetField (targetType e)); simpl; [|done].
  destruct (IH (S i)) as (H1 & H2 & H3).
  split_and!; [exact H1 | exact H2 | exact H3].
Qed.

Lemma emitted_supported rt es :
  Forall supported es →
  ∀ i, (emitted rt i es).1 = inr ()
       ∧ length (omap as_route (emitted rt i es).2) = length es.
Proof.
  induction 1 as [|e es He _ IH]; intros i; simpl; [done|].
  apply targetField_supported in He as [f ->]; simpl.
  destruct (IH (S i)) as (H1 & H2).
  split; [exact H1 | f_equal; exact H2].
Qed.

Lemma emitted_names rt es :
  Forall supported es →
  ∀ i, (omap as_route (emitted rt i es).2).*1
       = (λ k, "Route" +:+ pretty k) <$> seq i (length es).
Proof.
  induction 1 as [|e es He _ IH]; intros i; simpl; [done|].
  apply targetField_supported in He as [f ->]; simpl.
  f_equal. exact (IH (S i)).
Qed.

Lemma emitted_lookup rt es :
  Forall supported es →
  ∀ (i k : nat) e, es !! k = Some e →
    ∃ f, targetField (targetType e) = Some f
         ∧ omap as_route (emitted rt i es).2 !! k
           = Some ("Route" +:+ pretty (i + k), route_props rt e f).
Proof.
  induction 1 as [|e0 es He0 _ IH]; intros i k e Hk; [done|]. simpl.
  apply targetField_supported in He0 as [f0 Hf0]. rewrite Hf0; simpl.
  destruct k as [|k]; simpl in *.
  - injection Hk as <-. exists f0. by rewrite Nat.add_0_r.
  - destruct (IH (S i) k e Hk) as (f & Hf & Hl). exists f.
    rewrite Nat.add_succ_r. split; [done | exact Hl].
Qed.

Lemma emitted_unsupported rt pre bad post :
  Forall supported pre → ¬ supported bad →
  ∀ i, emitted rt i (pre ++ bad :: post)
       = (inl (unsupported_error bad), (emitted rt i pre).2).
Proof.
  intros Hpre Hbad. induction Hpre as [|e es He _ IH]; intros i; simpl.
  - destruct (targetField (targetType bad)) eqn:Hf; [|done].
    destruct Hbad. apply targetField_supported. by eexists.
  - apply targetField_supported in He as [f ->]; simpl. by rewrite IH.
Qed.

Lemma route_props_lookup rt e f :
  f ∈ targetFields →
  route_props rt e f !! "routeTableId" = Some (ec2.Ref rt)
  ∧ route_props rt e f !! "destinationCidrBlock" = Some (ec2.Str (destinationCidr e))
  ∧ route_props rt e f !! f = Some (ec2.Str (targetId e)).
Proof.
  intros Hf. unfold route_props, spread, targetFields in *.
  repeat (apply elem_of_cons in Hf as [->|Hf]; [by vm_compute|]).
  by apply elem_of_nil in Hf.
Qed.

Lemma run_classes spec cs sn rt :
  let t := {| children := base_children spec ++ cs; subnet := sn; routeTable := rt |} in
  routesOf t = omap as_route cs
  ∧ (∃ props, subnetsOf t = ("Subnet", props) :: omap as_subnet cs
              ∧ ec2.CfnSubnetProps.mapPublicIpOnLaunch props = false)
  ∧ (∃ props, routeTablesOf t = ("RouteTable", props) :: omap as_routeTable cs)
  ∧ (∃ props, associationsOf t = ("SubnetRouteTableAssoc", props) :: omap as_association cs).
Proof. simpl. split_and!; [done | by eexists | by eexists | by eexists]. Qed.

Lemma reachable_resource_ok s :
  reachable s → Forall (λ c, resource_ok c.2) (children (this s)).
Proof.
  induction 1 as [props h|s a _ IH|s h _ IH].
  - refine (proj2 (proj1 (triple_constructor resource_ok h _ props
                            {| heap := h; this := blank |} _))); [done|].
    split; [done | apply Forall_nil_2].
  - refine (proj2 (proj1 (triple_addRouteTableEntries resource_ok (heap s) _ a s _)));
      [done|]. by split.
  - done.
Qed.

(** ** The two scenarios of the specification, run *)

Example scenario_A :
  new_SubnetWithRouteTable 1%positive example_heap
  = (inr (),
     {| heap := example_heap;
        this :=
          {| children :=
               [ ("Subnet",
                  ec2.CfnSubnet
                    {| ec2.CfnSubnetProps.vpcId := "vpc-1";
                       ec2.CfnSubnetProps.cidrBlock := "10.0.1.0/24";
                       ec2.CfnSubnetProps.availabilityZone := "us-east-1a";
                       ec2.CfnSubnetProps.mapPublicIpOnLaunch := false;
                       ec2.CfnSubnetProps.tags :=
                         Some [ {| cdk.key := "env"; cdk.value := "prod" |};
                                {| cdk.key := "team"; cdk.value := "net" |} ] |});
                 ("RouteTable",
                  ec2.CfnRouteTable
                    {| ec2.CfnRouteTableProps.vpcId := "vpc-1";
                       ec2.CfnRouteTableProps.tags := None |});
                 ("SubnetRouteTableAssoc",
                  ec2.CfnSubnetRouteTableAssociation
                    {| ec2.CfnSubnetRouteTableAssociationProps.subnetId := ec2.Ref "Subnet";
                       ec2.CfnSubnetRouteTableAssociationProps.routeTableId :=
                         ec2.Ref "RouteTable" |});
                 ("Route0",
                  ec2.CfnRoute
                    {[ "routeTableId" := ec2.Ref "RouteTable";
                       "destinationCidrBlock" := ec2.Str "0.0.0.0/0";
                       "gatewayId" := ec2.Str "igw-123" ]}) ];
             subnet := Some "Subnet";
             routeTable := Some "RouteTable" |} |}).
Proof. by vm_compute. Qed.

Example scenario_B :
  (new_SubnetWithRouteTable 11%positive example_heap).1 = inr ()
  ∧ (children (this (new_SubnetWithRouteTable 11%positive example_heap).2)).*1
    = ["Subnet"; "RouteTable"; "SubnetRouteTableAssoc"].
Proof. by vm_compute. Qed.

Example resolveTarget_tgw :
  resolveTarget 18%positive (example_state blank)
  = (inr {[ "transitGatewayId" := ec2.Str "tgw-1" ]}, example_state blank).
Proof. by vm_compute. Qed.

Ltac by_decide := apply (bool_decide_unpack _); vm_compute; exact I.

(** * The claims *)

(** C1. [resolveTarget] returns, without an error and without a change of
    state, for each of the four target types that [RouteEntry] allows, and
    what it returns is an object with exactly one property, which holds the
    target id: [transitGatewayId] for [tgw] (the transit gateway),
    [vpcEndpointId] for [vpc-endpoint], [gatewayId] for [internet-gateway]
    and [natGatewayId] for [nat-gateway]. *)
Theorem resolveTarget_total s l e :
  heap s !! l = Some (ObjRouteEntry e) →
  supported e →
  ∃ f, resolveTarget l s = (inr {[ f := ec2.Str (targetId e) ]}, s)
       ∧ (targetType e = "tgw" → f = "transitGatewayId")
       ∧ (targetType e = "vpc-endpoint" → f = "vpcEndpointId")
       ∧ (targetType e = "internet-gateway" → f = "gatewayId")
       ∧ (targetType e = "nat-gateway" → f = "natGatewayId").
Proof.
  intros Hl He.
  assert (read_entry (heap s) l = Some e) as Hr by (unfold read_entry; by rewrite Hl).
  rewrite (resolveTarget_run _ _ _ Hr).
  unfold supported, targetTypes in He. unfold targetField.
  repeat (apply elem_of_cons in He as [->|He];
          [eexists; split; [reflexivity|]; by split_and!|]).
  by apply elem_of_nil in He.
Qed.

Lemma resolveTarget_total_witness :
  ∃ f, resolveTarget 3%positive (example_state blank)
       = (inr {[ f := ec2.Str "igw-123" ]}, example_state blank)
       ∧ ("internet-gateway" = "tgw" → f = "transitGatewayId")
       ∧ ("internet-gateway" = "vpc-endpoint" → f = "vpcEndpointId")
       ∧ ("internet-gateway" = "internet-gateway" → f = "gatewayId")
       ∧ ("internet-gateway" = "nat-gateway" → f = "natGatewayId").
Proof.
  apply (resolveTarget_total (example_state blank) 3%positive igw_route).
  - reflexivity.
  - by_decide.
Defined.

(** C2. For a well-typed specification the construction succeeds and emits
    one Subnet, one RouteTable, one Association and as many Routes as
    [routeEntries] has entries, none when it is absent; the Route at
    position [i] is named [Route<i>] and carries the destination and the
    target of the entry at position [i]. *)
Theorem route_count_and_order h p spec :
  read_spec h p = Some spec →
  well_typed spec →
  (new_SubnetWithRouteTable p h).1 = inr ()
  ∧ length (routesOf (this (new_SubnetWithRouteTable p h).2))
    = length (default [] (routes spec))
  ∧ (routes spec = None → routesOf (this (new_SubnetWithRouteTable p h).2) = [])
  ∧ length (subnetsOf (this (new_SubnetWithRouteTable p h).2)) = 1
  ∧ length (routeTablesOf (this (new_SubnetWithRouteTable p h).2)) = 1
  ∧ length (associationsOf (this (new_SubnetWithRouteTable p h).2)) = 1
  ∧ ∀ (i : nat) e, default [] (routes spec) !! i = Some e →
      ∃ f props,
        targetField (targetType e) = Some f
        ∧ routesOf (this (new_SubnetWithRouteTable p h).2) !! i
          = Some ("Route" +:+ pretty i, props)
        ∧ props !! "routeTableId" = Some (ec2.Ref "RouteTable")
        ∧ props !! "destinationCidrBlock" = Some (ec2.Str (destinationCidr e))
        ∧ props !! f = Some (ec2.Str (targetId e)).
Proof.
  intros Hspec Hwt. rewrite (constructor_run _ _ _ Hspec).
  cbn [fst snd this].
  destruct (run_classes spec (emitted "RouteTable" 0 (default [] (routes spec))).2
              (Some "Subnet") (Some "RouteTable"))
    as (-> & (sp & -> & _) & (rp & ->) & (ap & ->)).
  destruct (emitted_only_routes "RouteTable" (default [] (routes spec)) 0)
    as (-> & -> & ->).
  destruct (emitted_supported "RouteTable" _ Hwt 0) as [Hok Hlen].
  split_and!; try done.
  - intros Hnone. by rewrite Hnone.
  - intros i e Hi.
    destruct (emitted_lookup "RouteTable" _ Hwt 0 i e Hi) as (f & Hf & Hl).
    exists f, (route_props "RouteTable" e f). split; [done|]. split; [exact Hl|].
    apply route_props_lookup. by apply targetField_Some in Hf as [_ ?].
Qed.

Lemma route_count_and_order_witness :
  (new_SubnetWithRouteTable 1%positive example_heap).1 = inr ()
  ∧ length (routesOf (this (new_SubnetWithRouteTable 1%positive example_heap).2))
    = 1
  ∧ ∃ props,
      routesOf (this (new_SubnetWithRouteTable 1%positive example_heap).2) !! 0
      = Some ("Route0", props)
      ∧ props !! "gatewayId" = Some (ec2.Str "igw-123").
Proof.
  destruct (route_count_and_order example_heap 1%positive example_spec)
    as (Hok & Hlen & _ & _ & _ & _ & Hroutes).
  - reflexivity.
  - by_decide.
  - split; [exact Hok|]. split; [exact Hlen|].
    destruct (Hroutes 0 igw_route eq_refl) as (f & props & Hf & Hl & _ & _ & Ht).
    injection Hf as <-. by exists props.
Defined.

(** C3. In every state a caller can observe, after a construction or after
    later calls of [addRouteTableEntries], ended normally or by an error,
    each Route among the children has exactly one of the four target
    properties: one is present and the other three are absent. *)
Theorem target_exclusivity s name props :
  reachable s →
  (name, ec2.CfnRoute props) ∈ children (this s) →
  exclusive props.
Proof.
  intros Hs Hin. apply reachable_resource_ok in Hs.
  rewrite Forall_forall in Hs. exact (Hs _ Hin).
Qed.

Lemma target_exclusivity_witness :
  exclusive (route_props "RouteTable" igw_route "gatewayId").
Proof.
  apply (target_exclusivity
           (new_SubnetWithRouteTable 1%positive example_heap).2 "Route0").
  - apply reachable_new.
  - apply list_elem_of_lookup. exists 3. reflexivity.
Defined.

(** C4. For an entry whose target type is none of the four, [resolveTarget]
    throws an error whose message ends with the offending value, and the
    callback of [addRouteTableEntries] leaves the state as it found it for
    that entry: no Route is emitted for it. *)
Theorem unsupported_target_rejected s l e :
  heap s !! l = Some (ObjRouteEntry e) →
  ¬ supported e →
  resolveTarget l s = (inl (JsError ("Unsupported target type: " +:+ targetType e)), s)
  ∧ ∀ index : nat,
      (addRoute l index s).2 = s
      ∧ (is_Some (routeTable (this s)) →
         (addRoute l index s).1
         = inl (JsError ("Unsupported target type: " +:+ targetType e))).
Proof.
  intros Hl He.
  assert (read_entry (heap s) l = Some e) as Hr by (unfold read_entry; by rewrite Hl).
  assert (targetField (targetType e) = None) as Hf.
  { destruct (targetField (targetType e)) eqn:Hf; [|done].
    destruct He. apply targetField_supported. by eexists. }
  pose proof (resolveTarget_run _ _ _ Hr) as Hrun. rewrite Hf in Hrun.
  split; [exact Hrun|]. intros index. unfold addRoute.
  destruct (routeTable (this s)) as [rt|] eqn:Hrt.
  - erewrite bind_inr by (by apply routeTable_ref_run).
    erewrite bind_inr by (by apply load_entry_run).
    erewrite bind_inl by exact Hrun. done.
  - split; [|by intros [? [=]]].
    unfold routeTable_ref, get_this, mbind, M_bind. by rewrite Hrt.
Qed.

Lemma unsupported_target_rejected_witness :
  resolveTarget 7%positive (example_state blank)
  = (inl (JsError "Unsupported target type: vpn-gateway"), example_state blank).
Proof.
  apply (unsupported_target_rejected (example_state blank) 7%positive vpn_route).
  - reflexivity.
  - by_decide.
Defined.

(** C5, as the code has it. When the first entry of [routeEntries] with a
    target type outside the four comes after the well-typed entries [pre],
    the construction throws the error that names its target type; by then
    the Subnet, the RouteTable, the Association and one Route for each entry
    of [pre] are children of the construct, and no Route exists for the
    offending entry or for an entry after it. *)
Theorem unsupported_target_aborts_construction h p spec pre bad post :
  read_spec h p = Some spec →
  routes spec = Some (pre ++ bad :: post) →
  Forall supported pre →
  ¬ supported bad →
  (new_SubnetWithRouteTable p h).1
  = inl (JsError ("Unsupported target type: " +:+ targetType bad))
  ∧ length (subnetsOf (this (new_SubnetWithRouteTable p h).2)) = 1
  ∧ length (routeTablesOf (this (new_SubnetWithRouteTable p h).2)) = 1
  ∧ length (associationsOf (this (new_SubnetWithRouteTable p h).2)) = 1
  ∧ (routesOf (this (new_SubnetWithRouteTable p h).2)).*1
    = (λ k : nat, "Route" +:+ pretty k) <$> seq 0 (length pre).
Proof.
  intros Hspec Hroutes Hpre Hbad.
  rewrite (constructor_run _ _ _ Hspec), Hroutes.
  change (default [] (Some (pre ++ bad :: post))) with (pre ++ bad :: post).
  rewrite (emitted_unsupported _ _ _ _ Hpre Hbad). cbn [fst snd this].
  destruct (run_classes spec (emitted "RouteTable" 0 pre).2
              (Some "Subnet") (Some "RouteTable"))
    as (-> & (sp & -> & _) & (rp & ->) & (ap & ->)).
  destruct (emitted_only_routes "RouteTable" pre 0) as (-> & -> & ->).
  split_and!; try done. by apply emitted_names.
Qed.

Lemma unsupported_target_aborts_construction_witness :
  (new_SubnetWithRouteTable 9%positive example_heap).1
  = inl (JsError "Unsupported target type: vpn-gateway")
  ∧ (routesOf (this (new_SubnetWithRouteTable 9%positive example_heap).2)).*1
    = ["Route0"].
Proof.
  destruct (unsupported_target_aborts_construction example_heap 9%positive
              {| networkId := "vpc-1"; addressBlock := "10.0.1.0/24"; zone := "us-east-1a";
                 routes := Some ([igw_route] ++ vpn_route :: [nat_route]);
                 subnetLabels := None; routeTableLabels := None |}
              [igw_route] vpn_route [nat_route])
    as (Herr & _ & _ & _ & Hnames).
  - reflexivity.
  - reflexivity.
  - by_decide.
  - by_decide.
  - split; [exact Herr | exact Hnames].
Defined.

(** C5, as the specification states it, fails: a construction whose only
    route has the target type [vpn-gateway] throws, and by then the construct
    has its Subnet, its RouteTable and its Association as children. *)
Lemma unsupported_target_leaves_resources :
  (new_SubnetWithRouteTable 17%positive example_heap).1
  = inl (JsError "Unsupported target type: vpn-gateway")
  ∧ (children (this (new_SubnetWithRouteTable 17%positive example_heap).2)).*1
    = ["Subnet"; "RouteTable"; "SubnetRouteTableAssoc"].
Proof. by vm_compute. Qed.

(** C6. [convertTagsToCdkFormat] returns [undefined] for [undefined]; for a
    tag object it returns one tag for each property, at the position
    [Object.entries] gives the property, with its key and its value; the
    result depends on the content of the object only, so that repeated calls
    agree; an object without properties gives the empty array, which is not
    [undefined]; and the object with the properties [env: prod] and
    [team: net] gives these two tags. *)
Theorem convertTagsToCdkFormat_spec :
  (∀ s, convertTagsToCdkFormat None s = (inr None, s))
  ∧ (∀ s l t, heap s !! l = Some (ObjTags t) →
       ∃ tags, convertTagsToCdkFormat (Some l) s = (inr (Some tags), s)
               ∧ length tags = length t
               ∧ ∀ (i : nat) k v,
                   t !! i = Some (k, v)
                   ↔ tags !! i = Some {| cdk.key := k; cdk.value := v |})
  ∧ (∀ s1 s2 l1 l2 t,
       heap s1 !! l1 = Some (ObjTags t) → heap s2 !! l2 = Some (ObjTags t) →
       (convertTagsToCdkFormat (Some l1) s1).1 = (convertTagsToCdkFormat (Some l2) s2).1)
  ∧ (∀ s l, heap s !! l = Some (ObjTags []) →
       convertTagsToCdkFormat (Some l) s = (inr (Some []), s)
       ∧ (convertTagsToCdkFormat (Some l) s).1 ≠ (convertTagsToCdkFormat None s).1)
  ∧ (∀ s l, heap s !! l = Some (ObjTags [("env", "prod"); ("team", "net")]) →
       convertTagsToCdkFormat (Some l) s
       = (inr (Some [ {| cdk.key := "env"; cdk.value := "prod" |};
                      {| cdk.key := "team"; cdk.value := "net" |} ]), s)).
Proof.
  assert (∀ s l t, heap s !! l = Some (ObjTags t) →
            convertTagsToCdkFormat (Some l) s = (inr (Some (to_tags t)), s)) as Hrun.
  { intros s l t Hl.
    apply (convertTagsToCdkFormat_run s (Some l) (Some t)).
    unfold read_optional, read_tags. by rewrite Hl. }
  split_and!.
  - done.
  - intros s l t Hl. exists (to_tags t). split; [by apply Hrun|].
    unfold to_tags. split; [by rewrite length_fmap|].
    intros i k v. rewrite list_lookup_fmap. destruct (t !! i) as [[k' v']|]; simpl.
    + split; intros [= -> ->]; done.
    + split; intros [=].
  - intros s1 s2 l1 l2 t H1 H2. by rewrite (Hrun _ _ _ H1), (Hrun _ _ _ H2).
  - intros s l Hl. by rewrite (Hrun _ _ _ Hl).
  - intros s l Hl. by rewrite (Hrun _ _ _ Hl).
Qed.

Lemma convertTagsToCdkFormat_spec_witness :
  convertTagsToCdkFormat (Some 4%positive) (example_state blank)
  = (inr (Some [ {| cdk.key := "env"; cdk.value := "prod" |};
                 {| cdk.key := "team"; cdk.value := "net" |} ]), example_state blank)
  ∧ (convertTagsToCdkFormat (Some 4%positive) (example_state blank)).1
    = (convertTagsToCdkFormat (Some 15%positive) (example_state blank)).1
  ∧ convertTagsToCdkFormat (Some 10%positive) (example_state blank)
    = (inr (Some []), example_state blank).
Proof.
  destruct convertTagsToCdkFormat_spec as (_ & _ & Hdet & Hempty & Hex).
  split_and!.
  - apply Hex. reflexivity.
  - apply (Hdet _ _ _ _ [("env", "prod"); ("team", "net")]); reflexivity.
  - apply Hempty. reflexivity.
Defined.

(** C7. Every Subnet in a state a caller can observe has
    [mapPublicIpOnLaunch] false; and whatever the content of the props, a
    construction that reaches the first [new] has exactly one Subnet, named
    [Subnet], with [mapPublicIpOnLaunch] false, also when a route makes the
    construction throw later. *)
Theorem subnet_never_public :
  (∀ s name props,
     reachable s →
     (name, ec2.CfnSubnet props) ∈ children (this s) →
     ec2.CfnSubnetProps.mapPublicIpOnLaunch props = false)
  ∧ (∀ h p spec,
       read_spec h p = Some spec →
            ∃ props,
         subnetsOf (this (new_SubnetWithRouteTable p h).2) = [("Subnet", props)]
         ∧ ec2.CfnSubnetProps.mapPublicIpOnLaunch props = false).
Proof.
  split.
  - intros s name props Hs Hin. apply reachable_resource_ok in Hs.
    rewrite Forall_forall in Hs. exact (Hs _ Hin).
  - intros h p spec Hspec.
    rewrite (constructor_run _ _ _ Hspec). cbn [snd this].
    destruct (run_classes spec (emitted "RouteTable" 0 (default [] (routes spec))).2
                (Some "Subnet") (Some "RouteTable"))
      as (_ & (sp & -> & Hflag) & _).
    destruct (emitted_only_routes "RouteTable" (default [] (routes spec)) 0) as (-> & _).
    by exists sp.
Qed.

Lemma subnet_never_public_witness :
  ∃ props,
    subnetsOf (this (new_SubnetWithRouteTable 9%positive example_heap).2)
    = [("Subnet", props)]
    ∧ ec2.CfnSubnetProps.mapPublicIpOnLaunch props = false.
Proof.
  apply (proj2 subnet_never_public example_heap 9%positive
           {| networkId := "vpc-1"; addressBlock := "10.0.1.0/24"; zone := "us-east-1a";
              routes := Some [igw_route; vpn_route; nat_route];
              subnetLabels := None; routeTableLabels := None |}).
  - reflexivity.
Defined.

(** C8. Two constructions from props of the same content, whatever the
    objects that hold it, both succeed when the
    content is well typed, and build the same construct: the same children
    under the same names in the same order, with the same property values
    and the same references between them. *)
Theorem define_deterministic h1 h2 p1 p2 spec :
  read_spec h1 p1 = Some spec →
  read_spec h2 p2 = Some spec →
  well_typed spec →
  (new_SubnetWithRouteTable p1 h1).1 = inr ()
  ∧ (new_SubnetWithRouteTable p2 h2).1 = inr ()
  ∧ this (new_SubnetWithRouteTable p1 h1).2
    = this (new_SubnetWithRouteTable p2 h2).2.
Proof.
  intros H1 H2 Hwt.
  rewrite (constructor_run _ _ _ H1), (constructor_run _ _ _ H2).
  cbn [fst snd this].
  destruct (emitted_supported "RouteTable" _ Hwt 0) as [Hok _]. by rewrite Hok.
Qed.

Lemma define_deterministic_witness :
  this (new_SubnetWithRouteTable 1%positive example_heap).2
  = this (new_SubnetWithRouteTable 12%positive example_heap).2.
Proof.
  apply (define_deterministic example_heap example_heap 1%positive 12%positive
           example_spec).
  - reflexivity.
  - reflexivity.
  - by_decide.
Defined.

(** C9, where the code departs from it.  After a construction with at least
    one initial route, [addRouteTableEntries] on an array whose first entry
    is well typed asks for the name [Route0] again: the constructs library
    throws, and the construct is left as it was, without the new route. *)
Theorem append_after_initial_routes_collides h p spec e0 es0 a l ls e :
  read_spec h p = Some spec →
  well_typed spec →
  routes spec = Some (e0 :: es0) →
  h !! a = Some (ObjArray (l :: ls)) →
  h !! l = Some (ObjRouteEntry e) →
  supported e →
  addRouteTableEntries a (new_SubnetWithRouteTable p h).2
  = (inl (DuplicateName "Route0"), (new_SubnetWithRouteTable p h).2).
Proof.
  intros Hspec Hwt Hroutes Ha Hl He.
  rewrite (constructor_run _ _ _ Hspec), Hroutes. cbn [snd].
  change (default [] (Some (e0 :: es0))) with (e0 :: es0).
  unfold well_typed in Hwt. rewrite Hroutes in Hwt.
  apply Forall_cons in Hwt as [He0 _].
  apply targetField_supported in He0 as [f0 Hf0].
  apply targetField_supported in He as [f Hf].
  unfold addRouteTableEntries.
  erewrite bind_inr by (by apply load_array_run).
  cbn [forEach]. erewrite bind_inl; [done|]. unfold addRoute.
  erewrite bind_inr by (by apply routeTable_ref_run).
  erewrite bind_inr by (apply load_entry_run; unfold read_entry; simpl; by rewrite Hl).
  erewrite bind_inr.
  2:{ erewrite resolveTarget_run by (unfold read_entry; simpl; by rewrite Hl).
      by rewrite Hf. }
  erewrite bind_inl; [done|]. apply addChild_duplicate.
  cbn [this children emitted]. rewrite Hf0. cbn [snd].
  rewrite fmap_app, elem_of_app. right. apply elem_of_cons. by left.
Qed.

Lemma append_after_initial_routes_collides_witness :
  addRouteTableEntries 5%positive
    (new_SubnetWithRouteTable 1%positive example_heap).2
  = (inl (DuplicateName "Route0"),
     (new_SubnetWithRouteTable 1%positive example_heap).2).
Proof.
  apply (append_after_initial_routes_collides example_heap 1%positive example_spec
           igw_route [] 5%positive 6%positive [] nat_route).
  - reflexivity.
  - by_decide.
  - reflexivity.
  - reflexivity.
  - reflexivity.
  - by_decide.
Defined.

(** The append does work on a construct that was built without routes. *)
Lemma append_after_no_routes h p spec a es :
  read_spec h p = Some spec →
  default [] (routes spec) = [] →
  read_array h a = Some es →
  Forall supported es →
  (addRouteTableEntries a (new_SubnetWithRouteTable p h).2).1 = inr ()
  ∧ (routesOf (this (addRouteTableEntries a (new_SubnetWithRouteTable p h).2).2)).*1
    = (λ k : nat, "Route" +:+ pretty k) <$> seq 0 (length es).
Proof.
  intros Hspec Hnone Ha Hes.
  rewrite (constructor_run _ _ _ Hspec), Hnone. cbn [snd emitted].
  rewrite app_nil_r.
  erewrite addRouteTableEntries_run; [|done..|].
  - cbn [fst snd this]. unfold with_children. cbn [children subnet routeTable].
    destruct (run_classes spec (emitted "RouteTable" 0 es).2
                (Some "Subnet") (Some "RouteTable")) as (-> & _).
    split; [by apply emitted_supported | by apply emitted_names].
  - intros j. apply route_name_fresh.
Qed.

(** C10. Neither the constructor nor [addRouteTableEntries] writes to the
    caller's heap: after the call, ended normally or by an error, the heap is
    the one before the call, with the same objects at the same locations, so
    no object of the caller has changed and none has been added. *)
Theorem inputs_not_mutated :
  (∀ p h, heap (new_SubnetWithRouteTable p h).2 = h)
  ∧ (∀ a s, heap (addRouteTableEntries a s).2 = heap s).
Proof.
  split.
  - intros p h.
    refine (proj1 (proj1 (triple_constructor (λ _, True) h _ p
                            {| heap := h; this := blank |} _))); [done|].
    split; [done | apply Forall_nil_2].
  - intros a s.
    refine (proj1 (proj1 (triple_addRouteTableEntries (λ _, True) (heap s) _ a s _)));
      [done|].
    split; [done|]. by apply Forall_true.
Qed.

(** * Further properties of the class *)

(** ** One step of the loop, in every state *)

Lemma addRoute_cases l i s :
  (∃ err, addRoute l i s = (inl err, s))
  ∨ (∃ rt e f,
       routeTable (this s) = Some rt
       ∧ read_entry (heap s) l = Some e
       ∧ targetField (targetType e) = Some f
       ∧ (route_name i ∉ (children (this s)).*1)
       ∧ addRoute l i s
         = (inr (), {| heap := heap s;
                       this := with_children (this s) [route_of rt i e f] |})).
Proof.
  destruct s as [h t]. cbn [heap this].
  destruct (routeTable t) as [rt|] eqn:Hrt.
  2:{ left. exists TypeError.
      unfold addRoute, routeTable_ref, get_this, mbind, M_bind. cbn [this].
      by rewrite Hrt. }
  destruct (read_entry h l) as [e|] eqn:He.
  2:{ left. exists TypeError. unfold addRoute.
      erewrite bind_inr by (by apply routeTable_ref_run).
      erewrite bind_inl; [done|].
      unfold read_entry in He. unfold load_entry, load, mbind, M_bind. cbn [heap].
      by destruct (h !! l) as [[]|]. }
  destruct (decide (route_name i ∈ (children t).*1)) as [Hin|Hfresh].
  - left. unfold addRoute.
    erewrite bind_inr by (by apply routeTable_ref_run).
    erewrite bind_inr by (by apply load_entry_run).
    pose proof (resolveTarget_run {| heap := h; this := t |} l e He) as Hr.
    destruct (targetField (targetType e)) as [f|].
    + eexists. erewrite bind_inr by exact Hr.
      erewrite bind_inl; [done|]. by apply addChild_duplicate.
    + eexists. erewrite bind_inl; [done | exact Hr].
  - pose proof (addRoute_run h t rt l e i He Hrt Hfresh) as Hrun.
    destruct (targetField (targetType e)) as [f|] eqn:Hf.
    + right. by exists rt, e, f.
    + left. by eexists.
Qed.

Lemma forEach_addRoute_grows ls :
  ∀ (i : nat) s,
    ∃ cs,
      (forEach addRoute ls i s).2
      = {| heap := heap s; this := with_children (this s) cs |}
      ∧ appended_routes (this s) i cs
      ∧ length cs ≤ length ls
      ∧ ((forEach addRoute ls i s).1 = inr () → length cs = length ls).
Proof.
  induction ls as [|l ls IH]; intros i s.
  - exists []. destruct s as [h t]. simpl. rewrite with_children_nil.
    split_and!; try done. split_and!; [done | by intros n ?%elem_of_nil | done].
  - cbn [forEach].
    destruct (addRoute_cases l i s) as [[err Herr]|(rt & e & f & Hrt & He & Hf & Hfresh & Hrun)].
    + exists []. erewrite bind_inl by exact Herr. destruct s as [h t]. simpl.
      rewrite with_children_nil.
      split_and!; [done | | lia | done].
      split_and!; [done | by intros n ?%elem_of_nil | done].
    + erewrite bind_inr by exact Hrun.
      destruct (IH (S i) {| heap := heap s;
                            this := with_children (this s) [route_of rt i e f] |})
        as (cs & Hstate & (Hnames & Hfr & Hall) & Hle & Hlen).
      exists (route_of rt i e f :: cs). cbn [heap this] in *.
      rewrite Hstate, with_children_app. split_and!.
      * done.
      * split_and!.
        -- cbn [fmap list_fmap length seq fst route_of]. by rewrite <-Hnames.
        -- intros n [->|Hn]%elem_of_cons; [done|].
           intros Hin. apply (Hfr n Hn). cbn [with_children children].
           rewrite fmap_app. apply elem_of_app. by left.
        -- constructor; [by exists rt, e, f|].
           eapply Forall_impl; [exact Hall|]. intros c (rt' & e' & f' & ? & ? & ?).
           by exists rt', e', f'.
      * simpl. lia.
      * intros Hok. simpl. f_equal. by apply Hlen.
Qed.

Lemma addRouteTableEntries_grows a s :
  ∃ cs,
    (addRouteTableEntries a s).2
    = {| heap := heap s; this := with_children (this s) cs |}
    ∧ appended_routes (this s) 0 cs
    ∧ (∀ ls, heap s !! a = Some (ObjArray ls) →
         length cs ≤ length ls
         ∧ ((addRouteTableEntries a s).1 = inr () → length cs = length ls)).
Proof.
  unfold addRouteTableEntries.
  destruct (heap s !! a) as [[pr|ls|e|t]|] eqn:Ha.
  2:{ erewrite bind_inr by (by apply load_array_run).
      destruct (forEach_addRoute_grows ls 0 s) as (cs & Hs & Hcs & Hle & Hlen).
      exists cs. split_and!; [done..|]. by intros ls' [= <-]. }
  all: exists []; erewrite bind_inl
         by (unfold load_array, load, mbind, M_bind; rewrite Ha; reflexivity).
  all: destruct s as [h s]; simpl; rewrite with_children_nil.
  all: split_and!; [done| |done].
  all: split_and!; [done | by intros n ?%elem_of_nil | done].
Qed.

(** ** The shape of the construct, in every state *)

Lemma route_name_inj' : Inj (=@{nat}) (=) route_name.
Proof. intros i j. apply route_name_inj. Qed.

Lemma has_subnet_grow t cs : has_subnet t → has_subnet (with_children t cs).
Proof. intros [p Hp]. exists p. simpl. apply elem_of_app. by left. Qed.

Lemma has_routeTable_grow t cs : has_routeTable t → has_routeTable (with_children t cs).
Proof. intros [p Hp]. exists p. cbn. apply elem_of_app. by left. Qed.

Lemma child_ok_grow t cs id r : child_ok t id r → child_ok (with_children t cs) id r.
Proof.
  destruct r; simpl; try done.
  - intros (? & ? & ? & ? & ?).
    split_and!; [done.. | by apply has_subnet_grow | by apply has_routeTable_grow].
  - intros (? & ? & ?). split_and!; [done.. | by apply has_routeTable_grow].
Qed.

Lemma tree_ok_grow t i cs :
  tree_ok t → appended_routes t i cs → tree_ok (with_children t cs).
Proof.
  intros (Hnd & Hch & Hsn & Hrt) (Hnames & Hfresh & Hall). split_and!.
  - cbn [with_children children]. rewrite fmap_app. apply NoDup_app. split_and!.
    + done.
    + intros n Hn Hn'. by apply (Hfresh n Hn').
    + rewrite Hnames. apply (@NoDup_fmap_2 _ _ route_name route_name_inj'), NoDup_seq.
  - intros id r. cbn [with_children children]. intros [Hin|Hin]%elem_of_app.
    + by apply child_ok_grow, Hch.
    + rewrite Forall_forall in Hall.
      destruct (Hall _ Hin) as (rt & e & f & Hrt' & Hf & Hr). simpl in Hr. subst r.
      destruct (Hrt rt Hrt') as [-> Hhas]. simpl. split_and!.
      * assert (id ∈ cs.*1) as Hid by (apply list_elem_of_fmap; by exists (id, ec2.CfnRoute (route_props "RouteTable" e f))).
        rewrite Hnames in Hid. apply list_elem_of_fmap in Hid as (k & -> & _). by exists k.
      * by exists e, f.
      * by apply has_routeTable_grow.
  - intros x Hx. destruct (Hsn x Hx) as [-> ?]. split; [done|]. by apply has_subnet_grow.
  - intros x Hx. destruct (Hrt x Hx) as [-> ?]. split; [done|]. by apply has_routeTable_grow.
Qed.

Lemma tree_ok_blank : tree_ok blank.
Proof.
  split_and!; simpl; [apply NoDup_nil_2 | by intros ?? ?%elem_of_nil | done | done].
Qed.

Lemma tree_ok_subnet sp :
  tree_ok {| children := [("Subnet", ec2.CfnSubnet sp)];
             subnet := Some "Subnet"; routeTable := None |}.
Proof.
  split_and!; simpl.
  - apply NoDup_singleton.
  - intros id r [= -> ->]%list_elem_of_singleton. done.
  - intros x [= <-]. split; [done|]. exists sp. apply list_elem_of_singleton. done.
  - done.
Qed.

Lemma tree_ok_base sp rp :
  tree_ok
    {| children :=
         [ ("Subnet", ec2.CfnSubnet sp); ("RouteTable", ec2.CfnRouteTable rp);
           ("SubnetRouteTableAssoc",
            ec2.CfnSubnetRouteTableAssociation
              {| ec2.CfnSubnetRouteTableAssociationProps.subnetId := ec2.Ref "Subnet";
                 ec2.CfnSubnetRouteTableAssociationProps.routeTableId :=
                   ec2.Ref "RouteTable" |}) ];
       subnet := Some "Subnet"; routeTable := Some "RouteTable" |}.
Proof.
  assert (has_subnet
            {| children :=
                 [ ("Subnet", ec2.CfnSubnet sp); ("RouteTable", ec2.CfnRouteTable rp);
                   ("SubnetRouteTableAssoc",
                    ec2.CfnSubnetRouteTableAssociation
                      {| ec2.CfnSubnetRouteTableAssociationProps.subnetId := ec2.Ref "Subnet";
                         ec2.CfnSubnetRouteTableAssociationProps.routeTableId :=
                           ec2.Ref "RouteTable" |}) ];
               subnet := Some "Subnet"; routeTable := Some "RouteTable" |}) as Hs.
  { exists sp. simpl. apply elem_of_cons. by left. }
  assert (has_routeTable
            {| children :=
                 [ ("Subnet", ec2.CfnSubnet sp); ("RouteTable", ec2.CfnRouteTable rp);
                   ("SubnetRouteTableAssoc",
                    ec2.CfnSubnetRouteTableAssociation
                      {| ec2.CfnSubnetRouteTableAssociationProps.subnetId := ec2.Ref "Subnet";
                         ec2.CfnSubnetRouteTableAssociationProps.routeTableId :=
                           ec2.Ref "RouteTable" |}) ];
               subnet := Some "Subnet"; routeTable := Some "RouteTable" |}) as Hr.
  { exists rp. simpl. apply elem_of_cons. right. apply elem_of_cons. by left. }
  split_and!.
  - simpl. repeat (apply NoDup_cons; split; [fresh_name|]). apply NoDup_nil_2.
  - intros id r Hin. simpl in Hin.
    repeat (apply elem_of_cons in Hin as [[= -> ->]|Hin]; [by simpl|]).
    by apply elem_of_nil in Hin.
  - by intros x [= <-].
  - by intros x [= <-].
Qed.

Lemma load_props_cases l s :
  (∃ p, load_props l s = (inr p, s)) ∨ (∃ err, load_props l s = (inl err, s)).
Proof.
  unfold load_props, load, mbind, M_bind.
  destruct (heap s !! l) as [[]|]; simpl; eauto.
Qed.

Lemma convertTagsToCdkFormat_cases tags s :
  (∃ t, convertTagsToCdkFormat tags s = (inr t, s))
  ∨ (∃ err, convertTagsToCdkFormat tags s = (inl err, s)).
Proof.
  destruct tags as [l|]; simpl; [|by left; eexists].
  unfold load_tags, load, mbind, M_bind.
  destruct (heap s !! l) as [[]|]; simpl; eauto.
Qed.

Lemma constructor_tree_ok p h : tree_ok (this (new_SubnetWithRouteTable p h).2).
Proof.
  unfold new_SubnetWithRouteTable, constructor.
  destruct (load_props_cases p {| heap := h; this := blank |}) as [[pr Hpr]|[err Herr]].
  2:{ erewrite bind_inl by exact Herr. apply tree_ok_blank. }
  erewrite bind_inr by exact Hpr.
  destruct (convertTagsToCdkFormat_cases (subnetTags pr) {| heap := h; this := blank |})
    as [[st Hst]|[err Herr]].
  2:{ erewrite bind_inl by exact Herr. apply tree_ok_blank. }
  erewrite bind_inr by exact Hst.
  erewrite bind_inr by (apply addChild_run; fresh_name).
  erewrite bind_inr by reflexivity.
  match goal with
  | |- context [mbind _ (convertTagsToCdkFormat ?tags) ?s] =>
      destruct (convertTagsToCdkFormat_cases tags s) as [[rtt Hrtt]|[err Herr]]
  end.
  2:{ erewrite bind_inl by exact Herr. apply tree_ok_subnet. }
  erewrite bind_inr by exact Hrtt.
  erewrite bind_inr by (apply addChild_run; fresh_name).
  erewrite bind_inr by reflexivity.
  erewrite bind_inr by reflexivity.
  erewrite bind_inr by reflexivity.
  erewrite bind_inr by (apply addChild_run; fresh_name).
  destruct (routeEntries pr) as [a|]; [|apply tree_ok_base].
  match goal with
  | |- context [addRouteTableEntries a ?s] =>
      destruct (addRouteTableEntries_grows a s) as (cs & -> & Hcs & _)
  end.
  eapply tree_ok_grow; [|exact Hcs]. apply tree_ok_base.
Qed.

Lemma reachable_tree_ok s : reachable s → tree_ok (this s).
Proof.
  induction 1 as [props h|s a _ IH|s h _ IH].
  - apply constructor_tree_ok.
  - destruct (addRouteTableEntries_grows a s) as (cs & -> & Hcs & _).
    by eapply tree_ok_grow.
  - done.
Qed.

(** ** Appending routes after the construction *)

(** X1. On a construct that was built without routes, [routeEntries] absent
    or empty, [addRouteTableEntries] with well-typed entries succeeds: the
    routes of the construct are then one for each entry, in order, named
    [Route<i>], each with the reference to the route table, the destination
    and the target of its entry. *)
Theorem append_on_construct_without_routes h p spec a es :
  read_spec h p = Some spec →
  default [] (routes spec) = [] →
  read_array h a = Some es →
  Forall supported es →
  (addRouteTableEntries a (new_SubnetWithRouteTable p h).2).1 = inr ()
  ∧ length (routesOf (this (addRouteTableEntries a (new_SubnetWithRouteTable p h).2).2))
    = length es
  ∧ ∀ (i : nat) e, es !! i = Some e →
      ∃ f props,
        targetField (targetType e) = Some f
        ∧ routesOf (this (addRouteTableEntries a (new_SubnetWithRouteTable p h).2).2) !! i
          = Some (route_name i, props)
        ∧ props !! "routeTableId" = Some (ec2.Ref "RouteTable")
        ∧ props !! "destinationCidrBlock" = Some (ec2.Str (destinationCidr e))
        ∧ props !! f = Some (ec2.Str (targetId e)).
Proof.
  intros Hspec Hnone Ha Hes.
  rewrite (constructor_run _ _ _ Hspec), Hnone. cbn [snd emitted].
  rewrite app_nil_r.
  erewrite addRouteTableEntries_run; [|done..|intros j; apply route_name_fresh].
  cbn [fst snd this]. unfold with_children. cbn [children subnet routeTable].
  destruct (run_classes spec (emitted "RouteTable" 0 es).2
              (Some "Subnet") (Some "RouteTable")) as (-> & _).
  destruct (emitted_supported "RouteTable" _ Hes 0) as [Hok Hlen].
  split_and!; [done..|].
  intros i e Hi.
  destruct (emitted_lookup "RouteTable" _ Hes 0 i e Hi) as (f & Hf & Hl).
  exists f, (route_props "RouteTable" e f). split; [done|]. split; [exact Hl|].
  apply route_props_lookup. by apply targetField_Some in Hf as [_ ?].
Qed.

Lemma append_on_construct_without_routes_witness :
  (addRouteTableEntries 4%positive (new_SubnetWithRouteTable 1%positive extra_heap).2).1
  = inr ()
  ∧ length (routesOf (this (addRouteTableEntries 4%positive
                              (new_SubnetWithRouteTable 1%positive extra_heap).2).2))
    = 2.
Proof.
  destruct (append_on_construct_without_routes extra_heap 1%positive no_routes_spec
              4%positive [nat_route; tgw_route]) as (Hok & Hlen & _).
  - reflexivity.
  - reflexivity.
  - reflexivity.
  - by_decide.
  - split; [exact Hok | exact Hlen].
Defined.




(** ** The construction *)

(** X4. An empty [routeEntries] array counts as no [routeEntries]: the test
    [if (props.routeEntries)] lets it through, the loop does nothing, and
    the construct is the one built from props without the property. *)
Theorem empty_routeEntries_as_absent h1 p1 h2 p2 spec :
  read_spec h1 p1 = Some spec →
  routes spec = None →
  read_spec h2 p2
  = Some {| networkId := networkId spec; addressBlock := addressBlock spec;
            zone := zone spec; routes := Some [];
            subnetLabels := subnetLabels spec;
            routeTableLabels := routeTableLabels spec |} →
  (new_SubnetWithRouteTable p1 h1).1 = inr ()
  ∧ (new_SubnetWithRouteTable p2 h2).1 = inr ()
  ∧ this (new_SubnetWithRouteTable p2 h2).2 = this (new_SubnetWithRouteTable p1 h1).2
  ∧ routesOf (this (new_SubnetWithRouteTable p2 h2).2) = [].
Proof.
  intros H1 Hnone H2.
  rewrite (constructor_run _ _ _ H1), (constructor_run _ _ _ H2), Hnone. done.
Qed.

Lemma empty_routeEntries_as_absent_witness :
  this (new_SubnetWithRouteTable 2%positive extra_heap).2
  = this (new_SubnetWithRouteTable 1%positive extra_heap).2.
Proof.
  apply (empty_routeEntries_as_absent extra_heap 1%positive extra_heap 2%positive
           no_routes_spec); reflexivity.
Defined.

Lemma emitted_outcome rt es :
  ∀ i, match (emitted rt i es).1 with
       | inr _ => Forall supported es
       | inl err => ∃ e, e ∈ es ∧ ¬ supported e ∧ err = unsupported_error e
       end.
Proof.
  induction es as [|e es IH]; intros i; simpl; [done|].
  destruct (targetField (targetType e)) as [f|] eqn:Hf; simpl.
  - specialize (IH (S i)). destruct ((emitted rt (S i) es).1) as [err|].
    + destruct IH as (e' & Hin & Hbad & ->). exists e'.
      split; [|done]. apply elem_of_cons. by right.
    + constructor; [|done]. apply targetField_supported. by eexists.
  - exists e. split_and!; [apply elem_of_cons; by left | | done].
    intros [f Hf']%targetField_supported. congruence.
Qed.

(** X5. A construction from props whose references can be followed throws
    exactly when one of the routes has a target type outside the four, and
    the error it throws is then the one that names the target type of such
    a route; the other fields are not checked. *)
Theorem construction_fails_only_on_target_type h p spec :
  read_spec h p = Some spec →
  ((new_SubnetWithRouteTable p h).1 = inr () ↔ well_typed spec)
  ∧ ∀ err, (new_SubnetWithRouteTable p h).1 = inl err →
      ∃ e, e ∈ default [] (routes spec)
           ∧ ¬ supported e
           ∧ err = JsError ("Unsupported target type: " +:+ targetType e).
Proof.
  intros Hspec. rewrite (constructor_run _ _ _ Hspec). cbn [fst].
  pose proof (emitted_outcome "RouteTable" (default [] (routes spec)) 0) as Hout.
  split.
  - split.
    + intros Hok. by rewrite Hok in Hout.
    + intros Hwt. by apply emitted_supported.
  - intros err Herr. by rewrite Herr in Hout.
Qed.

Lemma construction_fails_only_on_target_type_witness :
  (new_SubnetWithRouteTable 1%positive extra_heap).1 = inr () ↔ well_typed no_routes_spec.
Proof.
  apply (construction_fails_only_on_target_type extra_heap 1%positive no_routes_spec).
  reflexivity.
Defined.

(** X6. Whatever the routes, a construction from props whose references can
    be followed has as its first three children the Subnet, the RouteTable
    and the Association. The Subnet carries [vpcId], [cidrBlock] and
    [availabilityZone] as given and the tags of [subnetTags]; the RouteTable
    carries the same [vpcId] and the tags of [routeTableTags]; the
    Association refers to these two; and the public fields [subnet] and
    [routeTable] hold these two. *)
Theorem base_resources h p spec :
  read_spec h p = Some spec →
  children (this (new_SubnetWithRouteTable p h).2) !! 0
  = Some ("Subnet",
          ec2.CfnSubnet
            {| ec2.CfnSubnetProps.vpcId := networkId spec;
               ec2.CfnSubnetProps.cidrBlock := addressBlock spec;
               ec2.CfnSubnetProps.availabilityZone := zone spec;
               ec2.CfnSubnetProps.mapPublicIpOnLaunch := false;
               ec2.CfnSubnetProps.tags := to_tags <$> subnetLabels spec |})
  ∧ children (this (new_SubnetWithRouteTable p h).2) !! 1
    = Some ("RouteTable",
            ec2.CfnRouteTable
              {| ec2.CfnRouteTableProps.vpcId := networkId spec;
                 ec2.CfnRouteTableProps.tags := to_tags <$> routeTableLabels spec |})
  ∧ children (this (new_SubnetWithRouteTable p h).2) !! 2
    = Some ("SubnetRouteTableAssoc",
            ec2.CfnSubnetRouteTableAssociation
              {| ec2.CfnSubnetRouteTableAssociationProps.subnetId := ec2.Ref "Subnet";
                 ec2.CfnSubnetRouteTableAssociationProps.routeTableId :=
                   ec2.Ref "RouteTable" |})
  ∧ subnet (this (new_SubnetWithRouteTable p h).2) = Some "Subnet"
  ∧ routeTable (this (new_SubnetWithRouteTable p h).2) = Some "RouteTable".
Proof. intros Hspec. by rewrite (constructor_run _ _ _ Hspec). Qed.

Lemma base_resources_witness :
  children (this (new_SubnetWithRouteTable 8%positive extra_heap).2) !! 1
  = Some ("RouteTable",
          ec2.CfnRouteTable
            {| ec2.CfnRouteTableProps.vpcId := "vpc-2";
               ec2.CfnRouteTableProps.tags :=
                 Some [ {| cdk.key := "owner"; cdk.value := "net" |};
                        {| cdk.key := "env"; cdk.value := "dev" |} ] |}).
Proof.
  apply (base_resources extra_heap 8%positive
           {| networkId := "vpc-2"; addressBlock := "10.9.0.0/24"; zone := "eu-west-1b";
              routes := Some [vpn_route; nat_route];
              subnetLabels := Some [("tier", "private")];
              routeTableLabels := Some [("owner", "net"); ("env", "dev")] |}).
  reflexivity.
Defined.

(** ** What holds of the construct in every state *)



Lemma route_props_dom rt e f :
  dom (route_props rt e f) = {[ "routeTableId"; "destinationCidrBlock"; f ]}.
Proof.
  unfold route_props, spread.
  rewrite dom_union_L, dom_singleton_L, dom_insert_L, dom_singleton_L.
  apply set_eq. intros x. rewrite !elem_of_union, !elem_of_singleton. tauto.
Qed.

(** X8. In every state a caller can observe, a Route of the construct is
    named [Route<k>] for some index [k] and has exactly three properties:
    [routeTableId], which refers to the child [RouteTable], a route table of
    the same construct; [destinationCidrBlock], a string; and one of the four
    target properties, a string. The spread of the resolved target never
    replaces the first two. *)
Theorem route_shape s id props :
  reachable s →
  (id, ec2.CfnRoute props) ∈ children (this s) →
  (∃ k, id = route_name k)
  ∧ (∃ rp, ("RouteTable", ec2.CfnRouteTable rp) ∈ children (this s))
  ∧ ∃ f d v,
      f ∈ targetFields
      ∧ dom props = {[ "routeTableId"; "destinationCidrBlock"; f ]}
      ∧ props !! "routeTableId" = Some (ec2.Ref "RouteTable")
      ∧ props !! "destinationCidrBlock" = Some (ec2.Str d)
      ∧ props !! f = Some (ec2.Str v).
Proof.
  intros Hs Hin. destruct (reachable_tree_ok s Hs) as (_ & Hch & _).
  destruct (Hch _ _ Hin) as (Hk & (e & f & Hf & ->) & Hrt).
  split_and!; [done..|].
  apply targetField_Some in Hf as [_ Hf].
  exists f, (destinationCidr e), (targetId e).
  split; [done|]. split; [apply route_props_dom|]. by apply route_props_lookup.
Qed.

Lemma route_shape_witness :
  ∃ k, "Route1" = route_name k.
Proof.
  refine (proj1 (route_shape
                   (addRouteTableEntries 4%positive
                      (new_SubnetWithRouteTable 1%positive extra_heap).2).2
                   "Route1" (route_props "RouteTable" tgw_route "transitGatewayId") _ _)).
  - apply reachable_add, reachable_new.
  - apply list_elem_of_lookup. exists 4. reflexivity.
Defined.

(** X9. In every state a caller can observe, the references the construct
    holds lead to children of the class they announce: the public field
    [subnet], when set, is the child [Subnet], a subnet; the public field
    [routeTable], when set, is the child [RouteTable], a route table; and an
    Association refers to these two children. *)
Theorem references_resolve s :
  reachable s →
  (∀ x, subnet (this s) = Some x →
     ∃ props, (x, ec2.CfnSubnet props) ∈ children (this s))
  ∧ (∀ x, routeTable (this s) = Some x →
       ∃ props, (x, ec2.CfnRouteTable props) ∈ children (this s))
  ∧ ∀ id props,
      (id, ec2.CfnSubnetRouteTableAssociation props) ∈ children (this s) →
      ∃ sn rt sp rp,
        ec2.CfnSubnetRouteTableAssociationProps.subnetId props = ec2.Ref sn
        ∧ ec2.CfnSubnetRouteTableAssociationProps.routeTableId props = ec2.Ref rt
        ∧ (sn, ec2.CfnSubnet sp) ∈ children (this s)
        ∧ (rt, ec2.CfnRouteTable rp) ∈ children (this s).
Proof.
  intros Hs. destruct (reachable_tree_ok s Hs) as (_ & Hch & Hsn & Hrt).
  split_and!.
  - intros x Hx. by destruct (Hsn x Hx) as [-> ?].
  - intros x Hx. by destruct (Hrt x Hx) as [-> ?].
  - intros id props Hin.
    destruct (Hch _ _ Hin) as (_ & Hs1 & Hs2 & [sp Hsp] & [rp Hrp]).
    by exists "Subnet", "RouteTable", sp, rp.
Qed.

Lemma references_resolve_witness :
  ∃ props,
    ("Subnet", ec2.CfnSubnet props)
    ∈ children (this (new_SubnetWithRouteTable 8%positive extra_heap).2).
Proof.
  refine (proj1 (references_resolve
                   (new_SubnetWithRouteTable 8%positive extra_heap).2 _) "Subnet" _).
  - apply reachable_new.
  - reflexivity.
Defined.

Lemma omap_nil_None {A} (f : string * ec2.CfnResource → option A) l :
  (∀ c, c ∈ l → f c = None) → omap f l = [].
Proof.
  induction l as [|c l IH]; intros Hl; [done|].
  change (omap f (c :: l))
    with (match f c with Some y => y :: omap f l | None => omap f l end).
  rewrite (Hl c) by (apply elem_of_cons; by left).
  apply IH. intros c' Hc'. apply Hl, elem_of_cons. by right.
Qed.

Lemma omap_at_most_one {A} (f : string * ec2.CfnResource → option A) x l :
  NoDup l.*1 →
  (∀ c, c ∈ l → is_Some (f c) → c.1 = x) →
  length (omap f l) ≤ 1.
Proof.
  induction l as [|c l IH]; intros Hnd Hx; [simpl; lia|].
  change (omap f (c :: l))
    with (match f c with Some y => y :: omap f l | None => omap f l end).
  change ((c :: l).*1) with (c.1 :: l.*1) in Hnd.
  apply NoDup_cons in Hnd as [Hc Hnd].
  assert (∀ c', c' ∈ l → is_Some (f c') → c'.1 = x) as Hx'.
  { intros c' Hc'. apply Hx, elem_of_cons. by right. }
  destruct (f c) as [y|] eqn:Hfc; [|by apply IH].
  assert (c.1 = x) as Hcx by (apply Hx; [apply elem_of_cons; by left | by rewrite Hfc]).
  rewrite omap_nil_None; [simpl; lia|].
  intros c' Hc'. destruct (f c') as [y'|] eqn:Hfc'; [|done].
  destruct Hc. rewrite Hcx, <-(Hx' c' Hc') by (by rewrite Hfc').
  apply list_elem_of_fmap. by exists c'.
Qed.

(** X10. In every state a caller can observe, the construct has at most one
    Subnet, at most one RouteTable and at most one Association, however many
    times [addRouteTableEntries] has been called. *)
Theorem at_most_one_of_each s :
  reachable s →
  length (subnetsOf (this s)) ≤ 1
  ∧ length (routeTablesOf (this s)) ≤ 1
  ∧ length (associationsOf (this s)) ≤ 1.
Proof.
  intros Hs. destruct (reachable_tree_ok s Hs) as (Hnd & Hch & _).
  split_and!.
  - apply (omap_at_most_one _ "Subnet"); [done|].
    intros [id r] Hin [y Hy]. unfold as_subnet in Hy. simpl in *.
    destruct r; try done. exact (Hch _ _ Hin).
  - apply (omap_at_most_one _ "RouteTable"); [done|].
    intros [id r] Hin [y Hy]. unfold as_routeTable in Hy. simpl in *.
    destruct r; try done. exact (Hch _ _ Hin).
  - apply (omap_at_most_one _ "SubnetRouteTableAssoc"); [done|].
    intros [id r] Hin [y Hy]. unfold as_association in Hy. simpl in *.
    destruct r; try done. by destruct (Hch _ _ Hin) as [? _].
Qed.

Lemma at_most_one_of_each_witness :
  length (subnetsOf (this (addRouteTableEntries 4%positive
                             (new_SubnetWithRouteTable 1%positive extra_heap).2).2)) ≤ 1.
Proof.
  refine (proj1 (at_most_one_of_each
                   (addRouteTableEntries 4%positive
                      (new_SubnetWithRouteTable 1%positive extra_heap).2).2 _)).
  apply reachable_add, reachable_new.
Defined.

(** ** The tags *)

(** X11. The tags [convertTagsToCdkFormat] returns for a tag object give the
    object back: read as pairs they are its properties, in the order of
    [Object.entries]; and as the keys of an object are distinct, so are the
    keys of the tags. *)
Theorem tags_round_trip s l t :
  heap s !! l = Some (ObjTags t) →
  ∃ tags,
    convertTagsToCdkFormat (Some l) s = (inr (Some tags), s)
    ∧ from_tags tags = t
    ∧ (NoDup t.*1 → NoDup (cdk.key <$> tags)).
Proof.
  intros Hl. exists (to_tags t). split_and!.
  - apply (convertTagsToCdkFormat_run s (Some l) (Some t)).
    unfold read_optional, read_tags. by rewrite Hl.
  - unfold from_tags, to_tags. rewrite <-list_fmap_compose.
    rewrite <-(list_fmap_id t) at 2. apply list_fmap_ext. by intros i [k v] _.
  - unfold to_tags. by rewrite <-list_fmap_compose.
Qed.

Lemma tags_round_trip_witness :
  ∃ tags,
    convertTagsToCdkFormat (Some 4%positive) (example_state blank)
    = (inr (Some tags), example_state blank)
    ∧ from_tags tags = [("env", "prod"); ("team", "net")]
    ∧ (NoDup [("env", "prod"); ("team", "net")].*1 → NoDup (cdk.key <$> tags)).
Proof.
  apply (tags_round_trip (example_state blank) 4%positive
           [("env", "prod"); ("team", "net")]).
  reflexivity.
Defined.

(** ** A call of [addRouteTableEntries] that throws *)

Lemma emitted_all_names rt es :
  Forall supported es →
  ∀ i, (emitted rt i es).2.*1 = route_name <$> seq i (length es).
Proof.
  induction 1 as [|e es He _ IH]; intros i; simpl; [done|].
  apply targetField_supported in He as [f ->]; simpl.
  f_equal. exact (IH (S i)).
Qed.

(** X12. [addRouteTableEntries] does not check its entries before it adds
    routes. On a construct with a route table and without a child named
    [Route<j>], when the first entry with a target type outside the four
    comes after the well-typed entries [pre], the call throws the error that
    names this target type, and the routes for [pre], named [Route0] to
    [Route<length pre - 1>], stay in the construct. *)
Theorem append_stops_at_first_unsupported h t rt a pre bad post :
  read_array h a = Some (pre ++ bad :: post) →
  routeTable t = Some rt →
  (∀ j : nat, route_name j ∉ (children t).*1) →
  Forall supported pre →
  ¬ supported bad →
  ∃ cs,
    addRouteTableEntries a {| heap := h; this := t |}
    = (inl (JsError ("Unsupported target type: " +:+ targetType bad)),
       {| heap := h;
          this := {| children := children t ++ cs;
                     subnet := subnet t; routeTable := routeTable t |} |})
    ∧ cs.*1 = route_name <$> seq 0 (length pre)
    ∧ Forall (λ c, is_Some (as_route c)) cs.
Proof.
  intros Ha Hrt Hfresh Hpre Hbad.
  exists (emitted rt 0 pre).2. split_and!.
  - rewrite (addRouteTableEntries_run h t rt a _ Ha Hrt Hfresh).
    by rewrite (emitted_unsupported _ _ _ _ Hpre Hbad).
  - by apply emitted_all_names.
  - clear Ha Hfresh. generalize 0. induction Hpre as [|e es He _ IH]; intros i; simpl.
    + constructor.
    + apply targetField_supported in He as [f ->]; simpl.
      constructor; [by eexists | apply IH].
Qed.

Lemma append_stops_at_first_unsupported_witness :
  ∃ cs,
    addRouteTableEntries 8%positive
      {| heap := example_heap;
         this := this (new_SubnetWithRouteTable 11%positive example_heap).2 |}
    = (inl (JsError "Unsupported target type: vpn-gateway"),
       {| heap := example_heap;
          this :=
            {| children :=
                 children (this (new_SubnetWithRouteTable 11%positive example_heap).2)
                 ++ cs;
               subnet := subnet (this (new_SubnetWithRouteTable 11%positive example_heap).2);
               routeTable :=
                 routeTable (this (new_SubnetWithRouteTable 11%positive example_heap).2) |} |})
    ∧ cs.*1 = ["Route0"]
    ∧ Forall (λ c, is_Some (as_route c)) cs.
Proof.
  apply (append_stops_at_first_unsupported example_heap
           (this (new_SubnetWithRouteTable 11%positive example_heap).2)
           "RouteTable" 8%positive [igw_route] vpn_route [nat_route]).
  - reflexivity.
  - reflexivity.
  - intros j. apply route_name_fresh.
  - by_decide.
  - by_decide.
Defined.
